(** * Clementine explorer: the range-scan log fetcher of [src/App.tsx]

    A shallow embedding of [reverseHex] and [fetchResources] and the
    properties of the scan: window arithmetic, dispatch of log entries into
    the three React state collections, progress reporting and error
    handling. *)

From Stdlib Require Import ZArith List String Ascii Bool Lia.
From Stdlib Require Import Floats.SpecFloat.
From stdpp Require Import base option list countable gmap.
From Equations Require Import Equations.

Local Open Scope Z_scope.

(** ** JavaScript values

    A [bigint] is an unbounded integer: [Z].  A [number] is an IEEE-754
    binary64 value: [spec_float] at precision 53, with the operations of
    [SpecFloat] (round to nearest, ties to even). *)

Module JS.

Definition prec : Z := 53.
Definition emax : Z := 1024.

Definition number : Type := spec_float.

Definition NaN : number := S754_nan.
Definition Infinity : number := S754_infinity false.

(** [Number(b)] for a bigint [b]: the double nearest to [b]. *)
Definition Number (b : Z) : number := binary_normalize prec emax b 0 false.

(** [Number(x)] for [x : bigint | undefined]; [Number(undefined)] is NaN. *)
Definition NumberU (x : option Z) : number :=
  match x with
  | Some b => Number b
  | None => NaN
  end.

Definition div (x y : number) : number := SFdiv prec emax x y.
Definition mul (x y : number) : number := SFmul prec emax x y.
Definition ltb (x y : number) : bool := SFltb x y.
Definition leb (x y : number) : bool := SFleb x y.
Definition eqb (x y : number) : bool := SFeqb x y.

(** The mathematical value of an integral finite number, used to read
    results back ([0] on the values that are not finite). *)
Definition intValue (x : number) : Z :=
  match x with
  | S754_finite s m e => (if s then Z.opp else id) (Z.shiftl (Zpos m) e)
  | _ => 0
  end.

(** The property key under which a number indexes an object: the string
    [ToString(x)].  Two numbers give the same string exactly when they are
    the same value, [+0] and [-0] both giving ["0"]; the key is
    represented by the number with the sign of zero erased. *)
Definition propertyKey (x : number) : number :=
  match x with
  | S754_zero _ => S754_zero false
  | _ => x
  end.

End JS.

#[global] Instance spec_float_eq_dec : EqDecision spec_float.
Proof. solve_decision. Defined.

Definition spec_float_enc (x : spec_float) : bool + bool + (unit + bool * positive * Z) :=
  match x with
  | S754_zero s => inl (inl s)
  | S754_infinity s => inl (inr s)
  | S754_nan => inr (inl tt)
  | S754_finite s m e => inr (inr (s, m, e))
  end.

Definition spec_float_dec (y : bool + bool + (unit + bool * positive * Z)) : spec_float :=
  match y with
  | inl (inl s) => S754_zero s
  | inl (inr s) => S754_infinity s
  | inr (inl _) => S754_nan
  | inr (inr (s, m, e)) => S754_finite s m e
  end.

#[global] Instance spec_float_countable : Countable spec_float :=
  inj_countable' spec_float_enc spec_float_dec
    (fun x => match x with
              | S754_zero _ | S754_infinity _ | S754_nan | S754_finite _ _ _ => eq_refl
              end).

(** ** [reverseHex] *)

Module Str.

Local Open Scope string_scope.

(** [s.startsWith(p)] *)
Definition startsWith (s p : string) : bool := String.prefix p s.

(** [s.slice(n)] for [n >= 0]: the string without its first [n] characters. *)
Fixpoint slice (n : nat) (s : string) : string :=
  match n, s with
  | O, _ => s
  | S n', String _ s' => slice n' s'
  | S _, EmptyString => EmptyString
  end.

(** Line terminators, which [.] does not match (the characters are
    modelled as 8-bit code units, so U+2028 and U+2029 do not occur). *)
Definition isLineTerminator (c : ascii) : bool :=
  (Ascii.eqb c "010" || Ascii.eqb c "013")%bool.

(** All the matches of [/.{1,2}/g], left to right: at a line terminator
    there is no match and the search moves on by one character; elsewhere
    the match takes that character and, greedily, the next one when it is
    not a line terminator. *)
Fixpoint matches12 (s : string) : list string :=
  match s with
  | EmptyString => []
  | String a rest =>
      if isLineTerminator a then matches12 rest
      else
        match rest with
        | EmptyString => [String a EmptyString]
        | String b rest' =>
            if isLineTerminator b then String a EmptyString :: matches12 rest'
            else String a (String b EmptyString) :: matches12 rest'
        end
  end.

(** [s.match(/.{1,2}/g)]: [null] when nothing matches. *)
Definition match12 (s : string) : option (list string) :=
  match matches12 s with
  | [] => None
  | l => Some l
  end.

(** [a.join("")] *)
Definition join (a : list string) : string := String.concat "" a.

(** [x || ""] for [x : string | undefined]. *)
Definition orEmpty (x : option string) : string :=
  match x with
  | None => ""
  | Some "" => ""
  | Some r => r
  end.

End Str.

Definition reverseHex (hexString : string) : string :=
  let cleanedHex :=
    if Str.startsWith hexString "0x" then Str.slice 2 hexString else hexString in
  let reversedHex :=
    Str.orEmpty (option_map (fun m => Str.join (rev m)) (Str.match12 cleanedHex)) in
  reversedHex.

(** Hex strings, and the reading of "byte pairs in reverse order": the
    string cut into two-character pairs from the left, the pairs written
    last to first. *)
Definition isHexDigit (c : ascii) : bool :=
  let n := nat_of_ascii c in
  ((48 <=? n)%nat && (n <=? 57)%nat
   || (97 <=? n)%nat && (n <=? 102)%nat
   || (65 <=? n)%nat && (n <=? 70)%nat)%bool.

Fixpoint isHexString (s : string) : bool :=
  match s with
  | EmptyString => true
  | String c s' => (isHexDigit c && isHexString s')%bool
  end.

Fixpoint reversedPairs (s : string) : string :=
  match s with
  | String a (String b rest) =>
      String.append (reversedPairs rest) (String a (String b EmptyString))
  | _ => EmptyString
  end.

(** The pairs themselves, first to last. *)
Fixpoint pairsOf (s : string) : list string :=
  match s with
  | String a (String b rest) => String a (String b EmptyString) :: pairsOf rest
  | _ => []
  end.

(** ** Data model of the scan *)

(** The decoded arguments of the three events; every field is optional, as
    in the interfaces of the source ([withdrawalTimestamp] is the field
    [timestamp] of [WithdrawalLog]). *)
Record DepositLog := {
  wtxId : option string;
  txId : option string;
  recipient : option string;
  timestamp : option Z;
  depositId : option Z
}.

Record WithdrawalLog := {
  utxo : option (string * string);
  index : option Z;
  withdrawalTimestamp : option Z
}.

Record WithdrawFillerLog := {
  withdrawId : option Z;
  withdrawFillerId : option Z
}.

(** A decoded log entry: [eventName] is the constructor, [args] its argument. *)
Inductive Log :=
| Deposit (args : DepositLog)
| Withdrawal (args : WithdrawalLog)
| WithdrawFillerDeclared (args : WithdrawFillerLog).

(** The React state of [App] that [fetchResources] writes;
    [withdrawFillerLogs] is the object used as [Record<number, number>]. *)
Record AppState := {
  progress : JS.number;
  depositLogs : list DepositLog;
  withdrawLogs : list WithdrawalLog;
  withdrawFillerLogs : gmap JS.number JS.number;
  isLoaded : bool
}.

(** The values given to [useState]: the state after a page load. *)
Definition initialState : AppState := {|
  progress := S754_zero false;
  depositLogs := [];
  withdrawLogs := [];
  withdrawFillerLogs := ∅;
  isLoaded := false
|}.

Definition setProgress (p : JS.number) (st : AppState) : AppState :=
  {| progress := p;
     depositLogs := depositLogs st;
     withdrawLogs := withdrawLogs st;
     withdrawFillerLogs := withdrawFillerLogs st;
     isLoaded := isLoaded st |}.

Definition setIsLoaded (b : bool) (st : AppState) : AppState :=
  {| progress := progress st;
     depositLogs := depositLogs st;
     withdrawLogs := withdrawLogs st;
     withdrawFillerLogs := withdrawFillerLogs st;
     isLoaded := b |}.

(** The three setters are called with an updater of the previous value. *)
Definition setDepositLogs (f : list DepositLog -> list DepositLog) (st : AppState) : AppState :=
  {| progress := progress st;
     depositLogs := f (depositLogs st);
     withdrawLogs := withdrawLogs st;
     withdrawFillerLogs := withdrawFillerLogs st;
     isLoaded := isLoaded st |}.

Definition setWithdrawLogs (f : list WithdrawalLog -> list WithdrawalLog) (st : AppState) : AppState :=
  {| progress := progress st;
     depositLogs := depositLogs st;
     withdrawLogs := f (withdrawLogs st);
     withdrawFillerLogs := withdrawFillerLogs st;
     isLoaded := isLoaded st |}.

Definition setWithdrawFillerLogs (f : gmap JS.number JS.number -> gmap JS.number JS.number)
    (st : AppState) : AppState :=
  {| progress := progress st;
     depositLogs := depositLogs st;
     withdrawLogs := withdrawLogs st;
     withdrawFillerLogs := f (withdrawFillerLogs st);
     isLoaded := isLoaded st |}.

(** The node behind the viem client: [None] is a rejected promise. *)
Record Client := {
  getBlockNumber : option Z;
  getLogs : Z -> Z -> option (list Log)
}.

(** What a run does besides updating the collections, in order. *)
Inductive Effect :=
| CallSetIsLoaded (b : bool)
| CallGetBlockNumber
| CallGetLogs (fromBlock toBlock : Z)
| ConsoleLog (fromBlock toBlock : Z) (logs : list Log)
| ConsoleErrorLogs (fromBlock toBlock : Z)
| CallSetProgress (p : JS.number)
| ConsoleErrorResources.

#[global] Instance Effect_inhabited : Inhabited Effect := populate CallGetBlockNumber.

(** ** [fetchResources] *)

Definition batchSize : Z := 1000.

(** The literal [100]. *)
Definition hundred : JS.number := S754_finite false 7036874417766400 (-46).

(** The body of [logs.forEach]. *)
Definition dispatch (st : AppState) (log : Log) : AppState :=
  match log with
  | Deposit args => setDepositLogs (fun prevLogs => prevLogs ++ [args]) st
  | Withdrawal args => setWithdrawLogs (fun prevLogs => prevLogs ++ [args]) st
  | WithdrawFillerDeclared args =>
      setWithdrawFillerLogs
        (fun prevLogs =>
           <[JS.propertyKey (JS.NumberU (withdrawId args)) :=
               JS.NumberU (withdrawFillerId args)]> prevLogs) st
  end.

Definition forEach (logs : list Log) (st : AppState) : AppState :=
  fold_left dispatch logs st.

(** The upper bound of the window that starts at [fromBlock]. *)
Definition windowEnd (blockNumber fromBlock : Z) : Z :=
  let toBlock := fromBlock + batchSize - 1 in
  if toBlock >? blockNumber then blockNumber else toBlock.

(** The inner [try]/[catch]: one query, then the dispatch or the error log. *)
Definition queryWindow (client : Client) (fromBlock toBlock : Z) (st : AppState)
    : AppState * list Effect :=
  match getLogs client fromBlock toBlock with
  | Some logs =>
      (forEach logs st, [CallGetLogs fromBlock toBlock; ConsoleLog fromBlock toBlock logs])
  | None =>
      (st, [CallGetLogs fromBlock toBlock; ConsoleErrorLogs fromBlock toBlock])
  end.

(** The value passed to [setProgress] once the cursor is [fromBlock]. *)
Definition progressAt (blockNumber fromBlock : Z) : JS.number :=
  JS.mul (JS.div (JS.Number fromBlock) (JS.Number blockNumber)) hundred.

(** The [while] loop, from the cursor [fromBlock] on. *)
Equations? scanLoop (client : Client) (blockNumber fromBlock : Z) (st : AppState)
    : AppState * list Effect by wf (Z.to_nat (blockNumber + 1 - fromBlock)) lt :=
  scanLoop client blockNumber fromBlock st with Z_le_gt_dec fromBlock blockNumber := {
    | left Hle =>
        let toBlock := windowEnd blockNumber fromBlock in
        let r := queryWindow client fromBlock toBlock st in
        let fromBlock' := toBlock + 1 in
        let p := progressAt blockNumber fromBlock' in
        let k := scanLoop client blockNumber fromBlock' (setProgress p r.1) in
        (k.1, r.2 ++ [CallSetProgress p] ++ k.2)
    | right _ => (st, [])
  }.
Proof.
  subst fromBlock' toBlock. unfold windowEnd, batchSize.
  destruct (Z.gtb_spec (fromBlock + 1000 - 1) blockNumber); lia.
Qed.

Definition fetchResources (client : Client) (st : AppState) : AppState * list Effect :=
  let st := setIsLoaded false st in
  match getBlockNumber client with
  | Some blockNumber =>
      let k := scanLoop client blockNumber 0 st in
      (setIsLoaded true k.1,
       [CallSetIsLoaded false; CallGetBlockNumber] ++ k.2 ++ [CallSetIsLoaded true])
  | None =>
      (setIsLoaded false st,
       [CallSetIsLoaded false; CallGetBlockNumber; ConsoleErrorResources; CallSetIsLoaded false])
  end.

(** ** Observations on a run *)

(** The windows for which [getLogs] was called, in order. *)
Definition queriedWindows (tr : list Effect) : list (Z * Z) :=
  omap (fun e => match e with CallGetLogs f t => Some (f, t) | _ => None end) tr.

(** The values passed to [setProgress], in order. *)
Definition progressValues (tr : list Effect) : list JS.number :=
  omap (fun e => match e with CallSetProgress p => Some p | _ => None end) tr.

(** The windows whose failure was logged with [console.error]. *)
Definition failedWindows (tr : list Effect) : list (Z * Z) :=
  omap (fun e => match e with ConsoleErrorLogs f t => Some (f, t) | _ => None end) tr.

(** The number of top-level failure signals. *)
Definition resourceErrors (tr : list Effect) : nat :=
  length (omap (fun e => match e with ConsoleErrorResources => Some tt | _ => None end) tr).

(** What one window leaves in the trace and does to the state. *)
Definition windowEffects (client : Client) (blockNumber : Z) (w : Z * Z) : list Effect :=
  [CallGetLogs w.1 w.2;
   match getLogs client w.1 w.2 with
   | Some logs => ConsoleLog w.1 w.2 logs
   | None => ConsoleErrorLogs w.1 w.2
   end;
   CallSetProgress (progressAt blockNumber (w.2 + 1))].

Definition windowState (client : Client) (blockNumber : Z) (st : AppState) (w : Z * Z) : AppState :=
  setProgress (progressAt blockNumber (w.2 + 1))
    match getLogs client w.1 w.2 with
    | Some logs => forEach logs st
    | None => st
    end.

(** The windows of a scan in closed form: the [i]-th window after the
    cursor [fromBlock] starts [1000 * i] blocks later. *)
Definition windowsFrom (blockNumber fromBlock : Z) : list (Z * Z) :=
  map (fun i : nat =>
         (fromBlock + batchSize * Z.of_nat i,
          Z.min (fromBlock + batchSize * Z.of_nat i + (batchSize - 1)) blockNumber))
      (seq 0 (Z.to_nat ((blockNumber - fromBlock + batchSize) / batchSize))).

(** How a run ends: [setIsLoaded(true)] after the loop, or the outer
    [catch] with [setIsLoaded(false)]. *)
Inductive ScanStatus := Completed | Failed.

Definition scanStatus (r : AppState * list Effect) : ScanStatus :=
  if isLoaded r.1 then Completed else Failed.

(** [ceil(a / b)] for [b > 0], by the floor of the opposite. *)
Definition ceilDiv (a b : Z) : Z := - ((- a) / b).

(** The key under which a bigint [withdrawId] is stored. *)
Definition fillerKey (id : Z) : JS.number := JS.propertyKey (JS.Number id).

(** The entries of each kind in a window response, in order. *)
Definition depositsOf (logs : list Log) : list DepositLog :=
  omap (fun log => match log with Deposit a => Some a | _ => None end) logs.

Definition withdrawalsOf (logs : list Log) : list WithdrawalLog :=
  omap (fun log => match log with Withdrawal a => Some a | _ => None end) logs.

Definition fillersOf (logs : list Log) : list WithdrawFillerLog :=
  omap (fun log => match log with WithdrawFillerDeclared a => Some a | _ => None end) logs.

(** The upsert of one filler declaration into the mapping. *)
Definition upsertFiller (m : gmap JS.number JS.number) (a : WithdrawFillerLog)
    : gmap JS.number JS.number :=
  <[JS.propertyKey (JS.NumberU (withdrawId a)) := JS.NumberU (withdrawFillerId a)]> m.

(** The entries returned by the successful queries among the windows [ws],
    in order, and those of a whole run. *)
Definition windowLogs (client : Client) (ws : list (Z * Z)) : list Log :=
  concat (omap (fun w => getLogs client w.1 w.2) ws).

Definition scannedLogs (client : Client) : list Log :=
  match getBlockNumber client with
  | Some blockNumber => windowLogs client (windowsFrom blockNumber 0)
  | None => []
  end.

(** ** Sample nodes and entries *)

Definition deposit7 : DepositLog := {|
  wtxId := Some "0x11"%string;
  txId := Some "0x0123456789abcdef"%string;
  recipient := Some "0x3100000000000000000000000000000000000002"%string;
  timestamp := Some 1700000000;
  depositId := Some 7
|}.

Definition withdrawal3 : WithdrawalLog := {|
  utxo := Some ("0xaabb"%string, "0x00000001"%string);
  index := Some 3;
  withdrawalTimestamp := Some 1700000600
|}.

Definition filler (id fillerId : Z) : WithdrawFillerLog :=
  {| withdrawId := Some id; withdrawFillerId := Some fillerId |}.

Definition sampleLogs : list Log :=
  [Deposit deposit7; WithdrawFillerDeclared (filler 3 5); Withdrawal withdrawal3;
   WithdrawFillerDeclared (filler 3 6)].

(** Two declarations whose ids differ only beyond the 53 bits of a number. *)
Definition collidingLogs : list Log :=
  [WithdrawFillerDeclared (filler (2 ^ 53) 1); WithdrawFillerDeclared (filler (2 ^ 53 + 1) 2)].

(** A state left by an earlier run, in which withdrawal 3 is filled by 9. *)
Definition staleState : AppState := {|
  progress := hundred;
  depositLogs := [deposit7];
  withdrawLogs := [];
  withdrawFillerLogs := {[ fillerKey 3 := JS.Number 9 ]};
  isLoaded := true
|}.

(** The double printed [100.04]: the progress after the last window of a
    chain of height 2500. *)
Definition progress2501 : JS.number := S754_finite false 7039689167533506 (-46).

(** A node at height [H] that answers every window with no entry. *)
Definition quietNode (H : Z) : Client :=
  {| getBlockNumber := Some H; getLogs := fun _ _ => Some [] |}.

(** A node at height 2500 whose middle window fails; the others return
    [sampleLogs]. *)
Definition flakyNode : Client :=
  {| getBlockNumber := Some 2500;
     getLogs := fun fromBlock _ => if fromBlock =? 1000 then None else Some sampleLogs |}.

(** A node whose height query fails. *)
Definition deadNode : Client :=
  {| getBlockNumber := None; getLogs := fun _ _ => Some sampleLogs |}.

(** ** The table of the logs *)

Definition MEMPOOL_SPACE_URL : string := "https://mempool.space/testnet4/".

(** The string [reverseHex] works on, once a leading ["0x"] is gone. *)
Definition unprefixed (hexString : string) : string :=
  if Str.startsWith hexString "0x" then Str.slice 2 hexString else hexString.

(** The link to a transaction: [`${MEMPOOL_SPACE_URL}tx/${reverseHex(h)}`]. *)
Definition txLink (h : string) : string :=
  String.append MEMPOOL_SPACE_URL (String.append "tx/" (reverseHex h)).

(** The first cell of a row: the link to the deposit transaction and the
    recipient. *)
Record DepositCell := {
  depositHref : string;
  depositText : string;
  depositRecipient : option string
}.

(** The second cell, when [withdrawLogs[index]] exists: the link, the two
    components of the utxo printed one after the other, and the bigints
    whose decimal text is shown. *)
Record WithdrawalCell := {
  withdrawalHref : string;
  withdrawalText : string;
  withdrawalIndex : option Z;
  withdrawalTime : option Z
}.

(** The third cell, when [withdrawLogs[index]] exists: the row index, shown
    as the withdrawId, and [withdrawFillerLogs[index]]. *)
Record FillerCell := {
  shownWithdrawId : nat;
  shownFillerId : option JS.number
}.

Record Row := {
  depositCell : DepositCell;
  withdrawalCell : option WithdrawalCell;
  fillerCell : option FillerCell
}.

(** What is rendered under the heading: the table, or the text
    "No logs available yet." *)
Inductive LogsView :=
| NoLogs
| Table (rows : list Row).

Definition renderDeposit (deposit : DepositLog) : DepositCell :=
  {| depositHref := txLink (Str.orEmpty (txId deposit));
     depositText := reverseHex (Str.orEmpty (txId deposit));
     depositRecipient := recipient deposit |}.

Definition renderWithdrawal (w : WithdrawalLog) : WithdrawalCell :=
  {| withdrawalHref :=
       match utxo w with
       | Some (EmptyString, _) => "#"
       | Some (h, _) => txLink h
       | None => "#"
       end;
     withdrawalText :=
       match utxo w with
       | Some (h, n) => String.append h n
       | None => EmptyString
       end;
     withdrawalIndex := index w;
     withdrawalTime := withdrawalTimestamp w |}.

(** The row of [depositLogs.map((deposit, index) => ...)]; the index is a
    number, and indexes the filler object by its property key. *)
Definition renderRow (st : AppState) (index : nat) (deposit : DepositLog) : Row :=
  {| depositCell := renderDeposit deposit;
     withdrawalCell := renderWithdrawal <$> (withdrawLogs st !! index);
     fillerCell :=
       match withdrawLogs st !! index with
       | Some _ =>
           Some {| shownWithdrawId := index;
                   shownFillerId :=
                     withdrawFillerLogs st !! JS.propertyKey (JS.Number (Z.of_nat index)) |}
       | None => None
       end |}.

Definition renderLogs (st : AppState) : LogsView :=
  if ((0 <? length (depositLogs st))%nat || (0 <? length (withdrawLogs st))%nat)%bool
  then Table (imap (renderRow st) (depositLogs st))
  else NoLogs.

(** The filler declaration that decides the entry of a key: the last one
    with that key. *)
Definition lastFillerFor (k : JS.number) (l : list WithdrawFillerLog) : option WithdrawFillerLog :=
  last (filter (fun a => JS.propertyKey (JS.NumberU (withdrawId a)) = k) l).

(** ** The loop, unfolded once *)

Lemma scanLoop_eq client blockNumber fromBlock st :
  scanLoop client blockNumber fromBlock st =
    if decide (fromBlock ≤ blockNumber) then
      let toBlock := windowEnd blockNumber fromBlock in
      let r := queryWindow client fromBlock toBlock st in
      let p := progressAt blockNumber (toBlock + 1) in
      let k := scanLoop client blockNumber (toBlock + 1) (setProgress p r.1) in
      (k.1, r.2 ++ [CallSetProgress p] ++ k.2)
    else (st, []).
Proof.
  simp scanLoop.
  destruct (Z_le_gt_dec fromBlock blockNumber); case_decide; try lia; reflexivity.
Qed.

Lemma windowEnd_min blockNumber fromBlock :
  windowEnd blockNumber fromBlock = Z.min (fromBlock + 999) blockNumber.
Proof.
  unfold windowEnd, batchSize.
  destruct (Z.gtb_spec (fromBlock + 1000 - 1) blockNumber); lia.
Qed.

Lemma windowsFrom_done blockNumber fromBlock :
  blockNumber < fromBlock -> windowsFrom blockNumber fromBlock = [].
Proof.
  intros Hlt. unfold windowsFrom, batchSize.
  assert ((blockNumber - fromBlock + 1000) / 1000 <= 0) as Hq
    by (Z.div_mod_to_equations; lia).
  replace (Z.to_nat ((blockNumber - fromBlock + 1000) / 1000)) with O by lia.
  reflexivity.
Qed.

Lemma windowsFrom_step blockNumber fromBlock :
  fromBlock <= blockNumber ->
  windowsFrom blockNumber fromBlock =
    (fromBlock, windowEnd blockNumber fromBlock)
      :: windowsFrom blockNumber (windowEnd blockNumber fromBlock + 1).
Proof.
  intros Hle. rewrite windowEnd_min.
  destruct (Z_lt_le_dec (fromBlock + 999) blockNumber) as [Hin|Hlast].
  - rewrite Z.min_l by lia. unfold windowsFrom, batchSize.
    assert ((blockNumber - fromBlock + 1000) / 1000
            = (blockNumber - (fromBlock + 999 + 1) + 1000) / 1000 + 1) as ->.
    { replace (blockNumber - fromBlock + 1000)
        with (blockNumber - (fromBlock + 999 + 1) + 1000 + 1 * 1000) by lia.
      apply Z.div_add; lia. }
    assert (0 <= (blockNumber - (fromBlock + 999 + 1) + 1000) / 1000) as Hq
      by (Z.div_mod_to_equations; lia).
    rewrite Z2Nat.inj_add, Nat.add_comm by lia. simpl seq.
    rewrite <- seq_shift, map_cons, map_map. f_equal.
    + f_equal; lia.
    + apply map_ext. intros i. f_equal; lia.
  - rewrite Z.min_r by lia.
    rewrite (windowsFrom_done blockNumber (blockNumber + 1)) by lia.
    unfold windowsFrom, batchSize.
    assert ((blockNumber - fromBlock + 1000) / 1000 = 1) as ->
      by (Z.div_mod_to_equations; lia).
    simpl. f_equal. f_equal; lia.
Qed.

(** The loop is the fold of [windowState] over the windows in closed form,
    and its trace the concatenation of their [windowEffects]. *)
Lemma scanLoop_windows client blockNumber fromBlock st :
  scanLoop client blockNumber fromBlock st =
    (fold_left (windowState client blockNumber) (windowsFrom blockNumber fromBlock) st,
     concat (map (windowEffects client blockNumber) (windowsFrom blockNumber fromBlock))).
Proof.
  remember (Z.to_nat (blockNumber + 1 - fromBlock)) as n eqn:Hn.
  revert fromBlock st Hn.
  induction n as [n IH] using lt_wf_ind. intros fromBlock st Hn.
  rewrite scanLoop_eq. case_decide as Hle.
  - rewrite windowsFrom_step by done. cbn zeta.
    pose proof (windowEnd_min blockNumber fromBlock) as Hend.
    rewrite (IH (Z.to_nat (blockNumber + 1 - (windowEnd blockNumber fromBlock + 1))));
      [|lia|done].
    unfold queryWindow, windowState, windowEffects. simpl.
    destruct (getLogs client fromBlock (windowEnd blockNumber fromBlock)); reflexivity.
  - rewrite windowsFrom_done by lia. reflexivity.
Qed.

(** ** The windows in closed form *)

Lemma windowsFrom_length blockNumber fromBlock :
  length (windowsFrom blockNumber fromBlock)
  = Z.to_nat ((blockNumber - fromBlock + batchSize) / batchSize).
Proof. unfold windowsFrom. by rewrite length_map, length_seq. Qed.

Lemma windowsFrom_lookup blockNumber fromBlock (i : nat) (w : Z * Z) :
  windowsFrom blockNumber fromBlock !! i = Some w <->
  (i < length (windowsFrom blockNumber fromBlock))%nat /\
  w = (fromBlock + 1000 * Z.of_nat i, Z.min (fromBlock + 1000 * Z.of_nat i + 999) blockNumber).
Proof.
  rewrite windowsFrom_length. unfold windowsFrom, batchSize.
  change (map ?f ?l) with (f <$> l).
  rewrite list_lookup_fmap_Some. split.
  - intros (j & -> & Hj). apply lookup_seq in Hj as [-> Hlt]. done.
  - intros [Hlt ->]. exists i. split; [done|]. by apply lookup_seq.
Qed.

(** Every window in the list lies below the chain height. *)
Lemma windowsFrom_start_le blockNumber fromBlock (i : nat) :
  (i < length (windowsFrom blockNumber fromBlock))%nat ->
  fromBlock + 1000 * Z.of_nat i <= blockNumber.
Proof.
  rewrite windowsFrom_length. unfold batchSize. intros Hlt.
  assert (Z.of_nat i < (blockNumber - fromBlock + 1000) / 1000) as Hq by lia.
  revert Hq. Z.div_mod_to_equations. lia.
Qed.

(** The window after the last one would start above the chain height. *)
Lemma windowsFrom_stop blockNumber fromBlock :
  fromBlock <= blockNumber + 1 ->
  blockNumber < fromBlock + 1000 * Z.of_nat (length (windowsFrom blockNumber fromBlock)).
Proof.
  rewrite windowsFrom_length. unfold batchSize. intros Hle.
  assert (0 <= (blockNumber - fromBlock + 1000) / 1000) as Hq
    by (Z.div_mod_to_equations; lia).
  rewrite Z2Nat.id by done. Z.div_mod_to_equations. lia.
Qed.

(** ** The trace of a run, window by window *)

Lemma fetchResources_ok client st blockNumber :
  getBlockNumber client = Some blockNumber ->
  fetchResources client st =
    (setIsLoaded true
       (fold_left (windowState client blockNumber) (windowsFrom blockNumber 0)
          (setIsLoaded false st)),
     [CallSetIsLoaded false; CallGetBlockNumber]
       ++ concat (map (windowEffects client blockNumber) (windowsFrom blockNumber 0))
       ++ [CallSetIsLoaded true]).
Proof.
  intros Hh. unfold fetchResources. rewrite Hh, scanLoop_windows. reflexivity.
Qed.

Lemma queriedWindows_windowEffects client blockNumber ws :
  queriedWindows (concat (map (windowEffects client blockNumber) ws)) = ws.
Proof.
  induction ws as [|[f t] ws IH]; [done|].
  simpl. unfold queriedWindows in *. simpl.
  destruct (getLogs client f t); simpl; by rewrite IH.
Qed.

Lemma progressValues_windowEffects client blockNumber ws :
  progressValues (concat (map (windowEffects client blockNumber) ws))
  = map (fun w => progressAt blockNumber (w.2 + 1)) ws.
Proof.
  induction ws as [|[f t] ws IH]; [done|].
  simpl. unfold progressValues in *. simpl.
  destruct (getLogs client f t); simpl; by rewrite IH.
Qed.

Lemma failedWindows_windowEffects client blockNumber ws w :
  w ∈ failedWindows (concat (map (windowEffects client blockNumber) ws)) <->
  w ∈ ws /\ getLogs client w.1 w.2 = None.
Proof.
  induction ws as [|[f t] ws IH].
  - simpl. unfold failedWindows. simpl. split; [by intros ?%elem_of_nil|by intros [?%elem_of_nil _]].
  - simpl. unfold failedWindows in *. simpl.
    destruct (getLogs client f t) eqn:Hq; simpl.
    + rewrite IH, elem_of_cons. split; [intros [Hin Hnone]; split; [by right|done]|].
      intros [[->|Hin] Hnone]; [simpl in Hnone; congruence|done].
    + rewrite elem_of_cons, IH, elem_of_cons. split.
      * intros [->|[Hin Hnone]]; [split; [by left|done]|split; [by right|done]].
      * intros [[->|Hin] Hnone]; [by left|by right].
Qed.

Lemma resourceErrors_windowEffects client blockNumber ws :
  resourceErrors (concat (map (windowEffects client blockNumber) ws)) = O.
Proof.
  induction ws as [|[f t] ws IH]; [done|].
  simpl. unfold resourceErrors in *. simpl.
  destruct (getLogs client f t); exact IH.
Qed.

Lemma fetchResources_queriedWindows client st blockNumber :
  getBlockNumber client = Some blockNumber ->
  queriedWindows (fetchResources client st).2 = windowsFrom blockNumber 0.
Proof.
  intros Hh. rewrite (fetchResources_ok _ _ _ Hh). simpl.
  unfold queriedWindows. simpl. rewrite omap_app. simpl. rewrite app_nil_r.
  apply queriedWindows_windowEffects.
Qed.

Lemma fetchResources_progressValues client st blockNumber :
  getBlockNumber client = Some blockNumber ->
  progressValues (fetchResources client st).2
  = map (fun w => progressAt blockNumber (w.2 + 1)) (windowsFrom blockNumber 0).
Proof.
  intros Hh. rewrite (fetchResources_ok _ _ _ Hh). simpl.
  unfold progressValues. simpl. rewrite omap_app. simpl. rewrite app_nil_r.
  apply progressValues_windowEffects.
Qed.

(** ** Window arithmetic *)

(** C2: for a chain height [H >= 0] the windows queried by a scan are
    [[from, min (from + 999) H]], each of at most 1000 blocks; the first
    starts at 0, each next one starts right after the previous one ends, and
    the last one ends at [H]. *)
Theorem scan_windows_contiguous client st (H : Z) :
  0 <= H ->
  getBlockNumber client = Some H ->
  let ws := queriedWindows (fetchResources client st).2 in
  (forall (i : nat) w, ws !! i = Some w ->
     w.2 = Z.min (w.1 + 999) H /\ w.1 <= w.2 /\ w.2 - w.1 + 1 <= 1000) /\
  (exists t, head ws = Some (0, t)) /\
  (forall (i : nat) w w', ws !! i = Some w -> ws !! S i = Some w' -> w'.1 = w.2 + 1) /\
  (exists f, last ws = Some (f, H)).
Proof.
  intros Hpos Hh ws. subst ws. rewrite (fetchResources_queriedWindows _ _ _ Hh).
  pose proof (windowsFrom_stop H 0 ltac:(lia)) as Hstop.
  split; [|split; [|split]].
  - intros i w [Hlt ->]%windowsFrom_lookup.
    apply windowsFrom_start_le in Hlt. simpl. lia.
  - exists (Z.min 999 H). rewrite head_lookup. apply windowsFrom_lookup.
    split; [lia|done].
  - intros i w w' [Hi ->]%windowsFrom_lookup [Hsi ->]%windowsFrom_lookup.
    apply windowsFrom_start_le in Hsi. simpl. lia.
  - set (n := length (windowsFrom H 0)) in *.
    assert (0 < n)%nat as Hn by lia.
    exists (1000 * Z.of_nat (pred n)). rewrite last_lookup. apply windowsFrom_lookup.
    fold n. split; [lia|]. f_equal; lia.
Qed.

Lemma scan_windows_contiguous_witness :
  let ws := queriedWindows (fetchResources flakyNode initialState).2 in
  (forall (i : nat) w, ws !! i = Some w ->
     w.2 = Z.min (w.1 + 999) 2500 /\ w.1 <= w.2 /\ w.2 - w.1 + 1 <= 1000) /\
  (exists t, head ws = Some (0, t)) /\
  (forall (i : nat) w w', ws !! i = Some w -> ws !! S i = Some w' -> w'.1 = w.2 + 1) /\
  (exists f, last ws = Some (f, 2500)).
Proof.
  apply (scan_windows_contiguous flakyNode initialState 2500); [lia|reflexivity].
Defined.

(** C7: for a chain height [H >= 0] a scan issues [ceil ((H + 1) / 1000)]
    log queries and as many progress updates. *)
Theorem scan_window_count client st (H : Z) :
  0 <= H ->
  getBlockNumber client = Some H ->
  Z.of_nat (length (queriedWindows (fetchResources client st).2)) = ceilDiv (H + 1) 1000 /\
  Z.of_nat (length (progressValues (fetchResources client st).2)) = ceilDiv (H + 1) 1000.
Proof.
  intros Hpos Hh.
  rewrite (fetchResources_queriedWindows _ _ _ Hh), (fetchResources_progressValues _ _ _ Hh).
  rewrite length_map, windowsFrom_length. unfold batchSize, ceilDiv.
  assert (0 <= (H - 0 + 1000) / 1000) by (Z.div_mod_to_equations; lia).
  rewrite Z2Nat.id by done.
  split; Z.div_mod_to_equations; lia.
Qed.

Lemma scan_window_count_witness :
  Z.of_nat (length (queriedWindows (fetchResources flakyNode initialState).2)) = ceilDiv 2501 1000 /\
  Z.of_nat (length (progressValues (fetchResources flakyNode initialState).2)) = ceilDiv 2501 1000.
Proof.
  apply (scan_window_count flakyNode initialState 2500); [lia|reflexivity].
Defined.

(** [ceilDiv] is the ceiling of the quotient. *)
Lemma ceilDiv_spec (a b : Z) :
  0 < b -> b * (ceilDiv a b - 1) < a <= b * ceilDiv a b.
Proof. intros Hb. unfold ceilDiv. Z.div_mod_to_equations. nia. Qed.

(** ** Error handling *)

(** A window whose query failed leaves the three collections as they were. *)
Lemma windowState_failed client blockNumber st w :
  getLogs client w.1 w.2 = None ->
  depositLogs (windowState client blockNumber st w) = depositLogs st /\
  withdrawLogs (windowState client blockNumber st w) = withdrawLogs st /\
  withdrawFillerLogs (windowState client blockNumber st w) = withdrawFillerLogs st.
Proof. intros Hq. unfold windowState. rewrite Hq. done. Qed.

(** C5: whatever windows fail, the scan queries the same windows as a run
    without failure, each exactly once (no retry, no abort), logs an error
    for the failed windows and only for them, never reaches the outer
    failure handler, and ends with [setIsLoaded(true)]. *)
Theorem scan_survives_window_failures client st (H : Z) :
  getBlockNumber client = Some H ->
  let r := fetchResources client st in
  queriedWindows r.2 = queriedWindows (fetchResources (quietNode H) st).2 /\
  queriedWindows r.2 = windowsFrom H 0 /\
  NoDup (queriedWindows r.2) /\
  (forall w, w ∈ failedWindows r.2 <-> w ∈ windowsFrom H 0 /\ getLogs client w.1 w.2 = None) /\
  resourceErrors r.2 = O /\
  last r.2 = Some (CallSetIsLoaded true) /\
  isLoaded r.1 = true /\
  scanStatus r = Completed.
Proof.
  intros Hh r. subst r.
  rewrite (fetchResources_queriedWindows _ _ _ Hh).
  rewrite (fetchResources_queriedWindows (quietNode H) st H eq_refl).
  rewrite (fetchResources_ok _ _ _ Hh). simpl.
  split; [done|]. split; [done|]. split.
  { apply NoDup_alt. intros i j w [Hi ->]%windowsFrom_lookup [Hj Heq]%windowsFrom_lookup.
    injection Heq as Heq _. lia. }
  split.
  { intros w. unfold failedWindows. simpl. rewrite omap_app. simpl. rewrite app_nil_r.
    apply failedWindows_windowEffects. }
  split.
  { unfold resourceErrors. simpl. rewrite omap_app. simpl. rewrite app_nil_r.
    apply resourceErrors_windowEffects. }
  split; [|done].
  apply last_Some.
  by exists ([CallGetBlockNumber]
             ++ concat (map (windowEffects client H) (windowsFrom H 0))).
Qed.

Lemma scan_survives_window_failures_witness :
  let r := fetchResources flakyNode initialState in
  queriedWindows r.2 = queriedWindows (fetchResources (quietNode 2500) initialState).2 /\
  queriedWindows r.2 = windowsFrom 2500 0 /\
  NoDup (queriedWindows r.2) /\
  (forall w, w ∈ failedWindows r.2 <->
             w ∈ windowsFrom 2500 0 /\ getLogs flakyNode w.1 w.2 = None) /\
  resourceErrors r.2 = O /\
  last r.2 = Some (CallSetIsLoaded true) /\
  isLoaded r.1 = true /\
  scanStatus r = Completed.
Proof.
  apply (scan_survives_window_failures flakyNode initialState 2500). reflexivity.
Defined.

(** The run of [flakyNode]: the failed middle window is logged, the scan
    goes on and completes. *)
Example flakyNode_run :
  failedWindows (fetchResources flakyNode initialState).2 = [(1000, 1999)] /\
  queriedWindows (fetchResources flakyNode initialState).2
    = [(0, 999); (1000, 1999); (2000, 2500)] /\
  depositLogs (fetchResources flakyNode initialState).1 = [deposit7; deposit7].
Proof. vm_compute. done. Qed.

(** C6: when the chain-height query fails, the run ends in the outer
    failure handler: one failure signal and [setIsLoaded(false)], no log
    query, no progress update, and the collections and the progress value
    are those from before the run. *)
Theorem scan_fails_without_height client st :
  getBlockNumber client = None ->
  let r := fetchResources client st in
  r.2 = [CallSetIsLoaded false; CallGetBlockNumber; ConsoleErrorResources; CallSetIsLoaded false] /\
  scanStatus r = Failed /\
  isLoaded r.1 = false /\
  resourceErrors r.2 = 1%nat /\
  progressValues r.2 = [] /\
  queriedWindows r.2 = [] /\
  progress r.1 = progress st /\
  depositLogs r.1 = depositLogs st /\
  withdrawLogs r.1 = withdrawLogs st /\
  withdrawFillerLogs r.1 = withdrawFillerLogs st.
Proof.
  intros Hh r. subst r. unfold fetchResources. rewrite Hh. simpl. done.
Qed.

Lemma scan_fails_without_height_witness :
  let r := fetchResources deadNode initialState in
  r.2 = [CallSetIsLoaded false; CallGetBlockNumber; ConsoleErrorResources; CallSetIsLoaded false] /\
  scanStatus r = Failed /\
  isLoaded r.1 = false /\
  resourceErrors r.2 = 1%nat /\
  progressValues r.2 = [] /\
  queriedWindows r.2 = [] /\
  progress r.1 = progress initialState /\
  depositLogs r.1 = depositLogs initialState /\
  withdrawLogs r.1 = withdrawLogs initialState /\
  withdrawFillerLogs r.1 = withdrawFillerLogs initialState.
Proof.
  apply (scan_fails_without_height deadNode initialState). reflexivity.
Defined.

(** ** Dispatch of the entries of a window *)

Lemma forEach_depositLogs logs st :
  depositLogs (forEach logs st) = depositLogs st ++ depositsOf logs.
Proof.
  revert st. induction logs as [|log logs IH]; intros st.
  - simpl. by rewrite app_nil_r.
  - unfold forEach in *. simpl. rewrite IH.
    destruct log; simpl; [by rewrite <- app_assoc|done..].
Qed.

Lemma forEach_withdrawLogs logs st :
  withdrawLogs (forEach logs st) = withdrawLogs st ++ withdrawalsOf logs.
Proof.
  revert st. induction logs as [|log logs IH]; intros st.
  - simpl. by rewrite app_nil_r.
  - unfold forEach in *. simpl. rewrite IH.
    destruct log; simpl; [done|by rewrite <- app_assoc|done].
Qed.

Lemma forEach_withdrawFillerLogs logs st :
  withdrawFillerLogs (forEach logs st)
  = fold_left upsertFiller (fillersOf logs) (withdrawFillerLogs st).
Proof.
  revert st. induction logs as [|log logs IH]; intros st; [done|].
  unfold forEach in *. simpl. rewrite IH. by destruct log.
Qed.

Lemma forEach_progress logs st :
  progress (forEach logs st) = progress st /\ isLoaded (forEach logs st) = isLoaded st.
Proof.
  revert st. induction logs as [|log logs IH]; intros st; [done|].
  unfold forEach in *. simpl. destruct (IH (dispatch st log)) as [-> ->]. by destruct log.
Qed.

(** The three kinds partition a response. *)
Lemma kinds_partition logs :
  map Deposit (depositsOf logs) ++ map Withdrawal (withdrawalsOf logs)
    ++ map WithdrawFillerDeclared (fillersOf logs) ≡ₚ logs.
Proof.
  induction logs as [|log logs IH]; [done|].
  destruct log; unfold depositsOf, withdrawalsOf, fillersOf in *; simpl.
  - by constructor.
  - rewrite <- Permutation_middle. by constructor.
  - rewrite app_assoc, <- Permutation_middle, <- app_assoc. by constructor.
Qed.

(** C1: on a successful window response the Deposit entries are appended, in
    order, to [depositLogs], the Withdrawal entries to [withdrawLogs], the
    WithdrawFillerDeclared entries are upserted in order into
    [withdrawFillerLogs], and the entries so dispatched are, up to order,
    exactly those of the response: none is dropped, none is taken twice. *)
Theorem window_dispatch client st (fromBlock toBlock : Z) (logs : list Log) :
  getLogs client fromBlock toBlock = Some logs ->
  let st' := (queryWindow client fromBlock toBlock st).1 in
  depositLogs st' = depositLogs st ++ depositsOf logs /\
  withdrawLogs st' = withdrawLogs st ++ withdrawalsOf logs /\
  withdrawFillerLogs st' = fold_left upsertFiller (fillersOf logs) (withdrawFillerLogs st) /\
  map Deposit (depositsOf logs) ++ map Withdrawal (withdrawalsOf logs)
    ++ map WithdrawFillerDeclared (fillersOf logs) ≡ₚ logs /\
  (length (depositsOf logs) + length (withdrawalsOf logs) + length (fillersOf logs)
   = length logs)%nat.
Proof.
  intros Hq st'. subst st'. unfold queryWindow. rewrite Hq. simpl.
  split; [apply forEach_depositLogs|].
  split; [apply forEach_withdrawLogs|].
  split; [apply forEach_withdrawFillerLogs|].
  split; [apply kinds_partition|].
  rewrite <- (Permutation_length (kinds_partition logs)).
  by rewrite !length_app, !length_map, Nat.add_assoc.
Qed.

Lemma window_dispatch_witness :
  let st' := (queryWindow flakyNode 0 999 initialState).1 in
  depositLogs st' = depositLogs initialState ++ depositsOf sampleLogs /\
  withdrawLogs st' = withdrawLogs initialState ++ withdrawalsOf sampleLogs /\
  withdrawFillerLogs st'
  = fold_left upsertFiller (fillersOf sampleLogs) (withdrawFillerLogs initialState) /\
  map Deposit (depositsOf sampleLogs) ++ map Withdrawal (withdrawalsOf sampleLogs)
    ++ map WithdrawFillerDeclared (fillersOf sampleLogs) ≡ₚ sampleLogs /\
  (length (depositsOf sampleLogs) + length (withdrawalsOf sampleLogs)
     + length (fillersOf sampleLogs) = length sampleLogs)%nat.
Proof.
  apply (window_dispatch flakyNode initialState 0 999 sampleLogs). reflexivity.
Defined.

(** One entry changes one collection only. *)
Lemma dispatch_one_sink st log :
  match log with
  | Deposit a =>
      depositLogs (dispatch st log) = depositLogs st ++ [a] /\
      withdrawLogs (dispatch st log) = withdrawLogs st /\
      withdrawFillerLogs (dispatch st log) = withdrawFillerLogs st
  | Withdrawal a =>
      depositLogs (dispatch st log) = depositLogs st /\
      withdrawLogs (dispatch st log) = withdrawLogs st ++ [a] /\
      withdrawFillerLogs (dispatch st log) = withdrawFillerLogs st
  | WithdrawFillerDeclared a =>
      depositLogs (dispatch st log) = depositLogs st /\
      withdrawLogs (dispatch st log) = withdrawLogs st /\
      withdrawFillerLogs (dispatch st log) = upsertFiller (withdrawFillerLogs st) a
  end.
Proof. by destruct log. Qed.

(** ** [Number] is exact up to [2 ^ 53] *)

Lemma digits2_pos_size p : digits2_pos p = Pos.size p.
Proof. induction p; simpl; congruence. Qed.

Lemma digits2_pos_iter p k : digits2_pos (Pos.iter xO p k) = (digits2_pos p + k)%positive.
Proof.
  induction k using Pos.peano_ind.
  - simpl. lia.
  - rewrite Pos.iter_succ. simpl. rewrite IHk. lia.
Qed.

Lemma Zpos_iter p k : Zpos (Pos.iter xO p k) = Zpos p * 2 ^ Zpos k.
Proof.
  induction k using Pos.peano_ind.
  - simpl. lia.
  - rewrite Pos.iter_succ, Pos2Z.inj_xO, IHk, Pos2Z.inj_succ, Z.pow_succ_r by lia. lia.
Qed.

Lemma digits2_pos_bound p : Zpos p < 2 ^ 53 -> Zpos (digits2_pos p) <= 53.
Proof.
  intros Hlt. rewrite digits2_pos_size.
  destruct (Z_le_gt_dec (Zpos (Pos.size p)) 53) as [|Hgt]; [done|exfalso].
  pose proof (Pos.size_le p) as Hs.
  assert (2 ^ 54 <= 2 ^ Zpos (Pos.size p)) by (apply Z.pow_le_mono_r; lia).
  assert (Zpos (2 ^ Pos.size p) = 2 ^ Zpos (Pos.size p)) as Hpow by (apply Pos2Z.inj_pow).
  assert (Zpos (2 ^ Pos.size p) <= Zpos p~0) by exact Hs.
  lia.
Qed.

(** A mantissa of 53 bits with an exponent in range is not rounded. *)
Lemma binary_round_aux_exact m e :
  Zpos (digits2_pos m) = 53 -> -1074 <= e <= 971 ->
  binary_round_aux 53 1024 false (Zpos m) e loc_Exact = S754_finite false m e.
Proof.
  intros Hd He.
  unfold binary_round_aux, shr_fexp, fexp, emin, Zdigits2. rewrite Hd.
  assert (Z.max (53 + e - 53) (3 - 1024 - 53) - e = 0) as -> by lia.
  cbn [shr shr_record_of_loc loc_of_shr_record shr_m round_nearest_even].
  rewrite Hd.
  assert (Z.max (53 + e - 53) (3 - 1024 - 53) - e = 0) as -> by lia.
  cbn [shr shr_record_of_loc loc_of_shr_record shr_m round_nearest_even].
  destruct (Z.leb_spec e (1024 - 53)); [done|lia].
Qed.

Lemma Number_pos p :
  Zpos p < 2 ^ 53 ->
  exists m e, JS.Number (Zpos p) = S754_finite false m e /\ Z.shiftl (Zpos m) e = Zpos p.
Proof.
  intros Hlt. pose proof (digits2_pos_bound p Hlt) as Hd.
  unfold JS.Number, binary_normalize, binary_round, shl_align, fexp, emin, JS.prec, JS.emax.
  remember (Z.max (Z.pos (digits2_pos p) + 0 - 53) (3 - 1024 - 53)) as ex eqn:Hex.
  assert (ex = Z.pos (digits2_pos p) - 53) as Hex' by lia.
  destruct (ex - 0) as [|q|q] eqn:Hq; [|lia|].
  - exists p, 0. split; [|done].
    apply binary_round_aux_exact; lia.
  - exists (Pos.iter xO p q), ex. split.
    + apply binary_round_aux_exact; [|lia].
      rewrite digits2_pos_iter. lia.
    + replace ex with (- Z.pos q) by lia.
      rewrite Z.shiftl_opp_r, Z.shiftr_div_pow2, Zpos_iter by lia.
      apply Z.div_mul. lia.
Qed.

Lemma Number_exact z :
  0 <= z <= 2 ^ 53 ->
  (z = 0 /\ JS.Number z = S754_zero false) \/
  (exists m e, JS.Number z = S754_finite false m e /\ Z.shiftl (Zpos m) e = z).
Proof.
  intros [Hlo Hhi]. destruct z as [|p|p]; [by left| |lia]. right.
  destruct (Z.eq_dec (Zpos p) (2 ^ 53)) as [Heq|Hne].
  - injection Heq as ->. by exists 4503599627370496%positive, 1.
  - apply Number_pos. lia.
Qed.


Lemma intValue_fillerKey z : 0 <= z <= 2 ^ 53 -> JS.intValue (fillerKey z) = z.
Proof.
  intros Hz. unfold fillerKey.
  destruct (Number_exact z Hz) as [[-> ->]|(m & e & -> & Hv)]; done.
Qed.

Lemma fillerKey_inj a b :
  0 <= a <= 2 ^ 53 -> 0 <= b <= 2 ^ 53 -> fillerKey a = fillerKey b -> a = b.
Proof.
  intros Ha Hb Heq.
  rewrite <- (intValue_fillerKey a Ha), <- (intValue_fillerKey b Hb). by rewrite Heq.
Qed.

Lemma fillerKey_not_NaN z : 0 <= z <= 2 ^ 53 -> fillerKey z <> JS.propertyKey JS.NaN.
Proof.
  intros Hz. unfold fillerKey.
  destruct (Number_exact z Hz) as [[-> ->]|(m & e & -> & Hv)]; done.
Qed.

(** ** The filler mapping *)

Lemma upsertFiller_fold_other (l : list WithdrawFillerLog) (m : gmap JS.number JS.number) k :
  Forall (fun a => JS.propertyKey (JS.NumberU (withdrawId a)) <> k) l ->
  fold_left upsertFiller l m !! k = m !! k.
Proof.
  revert m. induction l as [|a l IH]; intros m Hl; [done|].
  apply Forall_cons in Hl as [Ha Hl]. simpl. rewrite (IH _ Hl).
  unfold upsertFiller. by rewrite lookup_insert_ne.
Qed.

Lemma upsertFiller_fold_is_Some (l : list WithdrawFillerLog) (m : gmap JS.number JS.number) k :
  is_Some (m !! k) -> is_Some (fold_left upsertFiller l m !! k).
Proof.
  revert m. induction l as [|a l IH]; intros m Hk; [done|].
  simpl. apply IH. unfold upsertFiller.
  destruct (decide (JS.propertyKey (JS.NumberU (withdrawId a)) = k)) as [->|Hne].
  - rewrite lookup_insert_eq. by eexists.
  - by rewrite lookup_insert_ne.
Qed.

Lemma upsertFiller_fold_last (pre post : list WithdrawFillerLog) a
    (m : gmap JS.number JS.number) :
  Forall (fun b => JS.propertyKey (JS.NumberU (withdrawId b))
                   <> JS.propertyKey (JS.NumberU (withdrawId a))) post ->
  fold_left upsertFiller (pre ++ a :: post) m !! JS.propertyKey (JS.NumberU (withdrawId a))
  = Some (JS.NumberU (withdrawFillerId a)).
Proof.
  intros Hpost. rewrite fold_left_app. simpl.
  rewrite (upsertFiller_fold_other _ _ _ Hpost).
  unfold upsertFiller. by rewrite lookup_insert_eq.
Qed.

Lemma fillersOf_app logs1 logs2 :
  fillersOf (logs1 ++ logs2) = fillersOf logs1 ++ fillersOf logs2.
Proof. apply omap_app. Qed.

Lemma depositsOf_app logs1 logs2 :
  depositsOf (logs1 ++ logs2) = depositsOf logs1 ++ depositsOf logs2.
Proof. apply omap_app. Qed.

Lemma withdrawalsOf_app logs1 logs2 :
  withdrawalsOf (logs1 ++ logs2) = withdrawalsOf logs1 ++ withdrawalsOf logs2.
Proof. apply omap_app. Qed.

(** C8 as stated fails: the ids [2 ^ 53] and [2 ^ 53 + 1] are distinct and
    below [2 ^ 256], yet they are stored under one key, and the entry of the
    first is overwritten by the second. *)
Lemma distinct_withdrawIds_collide :
  2 ^ 53 <> 2 ^ 53 + 1 /\
  0 <= 2 ^ 53 < 2 ^ 256 /\ 0 <= 2 ^ 53 + 1 < 2 ^ 256 /\
  fillerKey (2 ^ 53) = fillerKey (2 ^ 53 + 1) /\
  withdrawFillerLogs (forEach collidingLogs initialState)
  = {[ fillerKey (2 ^ 53) := JS.Number 2 ]}.
Proof.
  split; [lia|]. split; [lia|]. split; [lia|]. split; [by vm_compute|].
  unfold forEach, collidingLogs. simpl.
  replace (JS.propertyKey (JS.Number (2 ^ 53 + 1))) with (fillerKey (2 ^ 53)) by by vm_compute.
  replace (JS.propertyKey (JS.Number (2 ^ 53))) with (fillerKey (2 ^ 53)) by by vm_compute.
  apply insert_insert_eq.
Qed.

(** *** Numbers from [2 ^ 53] on, and negative ones *)

Lemma digits2_pos_lower p : 2 ^ (Zpos (digits2_pos p) - 1) <= Zpos p.
Proof.
  rewrite digits2_pos_size. pose proof (Pos.size_le p) as Hs.
  assert (Zpos (2 ^ Pos.size p) <= Zpos p~0) as Hz by exact Hs.
  rewrite Pos2Z.inj_pow in Hz.
  replace (Zpos (Pos.size p)) with (Zpos (Pos.size p) - 1 + 1) in Hz by lia.
  rewrite Z.pow_add_r in Hz by lia. lia.
Qed.

Lemma digits2_pos_upper p : Zpos p < 2 ^ Zpos (digits2_pos p).
Proof.
  rewrite digits2_pos_size. pose proof (Pos.size_gt p) as Hs.
  assert (Zpos p < Zpos (2 ^ Pos.size p)) as Hz by exact Hs.
  by rewrite Pos2Z.inj_pow in Hz.
Qed.

Lemma shr_1_m mrs : 0 <= shr_m mrs -> shr_m (shr_1 mrs) = Z.shiftr (shr_m mrs) 1.
Proof.
  destruct mrs as [m r s]. cbn [shr_m]. intros Hm.
  rewrite Z.shiftr_div_pow2 by lia. change (2 ^ 1) with 2.
  destruct m as [|[p|p|]|p]; cbn [shr_1 shr_m]; try lia; try done.
  - apply Z.div_unique with 1; lia.
  - apply Z.div_unique with 0; lia.
Qed.

Lemma iter_shr_1_m k mrs :
  0 <= shr_m mrs -> shr_m (SpecFloat.iter_pos shr_1 k mrs) = Z.shiftr (shr_m mrs) (Zpos k).
Proof.
  revert mrs. induction k as [k IH|k IH|]; intros mrs Hm; simpl SpecFloat.iter_pos.
  - assert (0 <= shr_m (shr_1 mrs)) as H1
      by (rewrite shr_1_m by done; by apply Z.shiftr_nonneg).
    assert (0 <= shr_m (SpecFloat.iter_pos shr_1 k (shr_1 mrs))) as H2
      by (rewrite IH by done; by apply Z.shiftr_nonneg).
    rewrite (IH _ H2), (IH _ H1), shr_1_m by done.
    rewrite !Z.shiftr_shiftr by lia. f_equal. lia.
  - assert (0 <= shr_m (SpecFloat.iter_pos shr_1 k mrs)) as H2
      by (rewrite IH by done; by apply Z.shiftr_nonneg).
    rewrite (IH _ H2), (IH _ Hm).
    rewrite !Z.shiftr_shiftr by lia. f_equal. lia.
  - by apply shr_1_m.
Qed.

(** Dropping all but the 53 leading bits leaves a positive mantissa. *)
Lemma leading_bits_pos p :
  53 <= Zpos (digits2_pos p) ->
  0 < Z.shiftr (Zpos p) (Zpos (digits2_pos p) - 53).
Proof.
  intros Hd. pose proof (digits2_pos_lower p) as Hlo.
  rewrite Z.shiftr_div_pow2 by lia.
  assert (0 < 2 ^ (Zpos (digits2_pos p) - 53)) as Hpow by (apply Z.pow_pos_nonneg; lia).
  apply Z.div_str_pos. split; [done|].
  etrans; [|exact Hlo]. apply Z.pow_le_mono_r; lia.
Qed.

(** An integer of more than 53 bits becomes a number with a positive
    exponent, or an infinity. *)
Lemma binary_round_aux_big sx p :
  54 <= Zpos (digits2_pos p) ->
  match binary_round_aux 53 1024 sx (Zpos p) 0 loc_Exact with
  | S754_finite s m e => s = sx /\ 1 <= e
  | S754_infinity s => s = sx
  | _ => False
  end.
Proof.
  intros Hd. unfold binary_round_aux, shr_fexp, fexp, emin.
  cbn [Zdigits2 shr_record_of_loc].
  set (d := Zpos (digits2_pos p)) in *.
  replace (Z.max (d + 0 - 53) (3 - 1024 - 53) - 0) with (d - 53) by lia.
  destruct (d - 53) as [|k|k] eqn:Hk; [lia| |lia].
  cbn [shr].
  set (mrs := SpecFloat.iter_pos shr_1 k _).
  assert (shr_m mrs = Z.shiftr (Zpos p) (d - 53)) as Hm
    by (subst mrs; rewrite iter_shr_1_m by done; by rewrite Hk).
  pose proof (leading_bits_pos p ltac:(lia)) as Hpos. fold d in Hpos. rewrite <- Hm in Hpos.
  set (m' := round_nearest_even (shr_m mrs) (loc_of_shr_record mrs)).
  assert (0 < m') as Hm'.
  { subst m'. unfold round_nearest_even.
    destruct (loc_of_shr_record mrs) as [|[]]; try lia.
    destruct (Z.even (shr_m mrs)); lia. }
  destruct m' as [|q|q] eqn:Hq; [lia| |lia].
  cbn [Zdigits2].
  set (D := Zpos (digits2_pos q)).
  destruct (Z.max (D + (0 + Zpos k) - 53) (3 - 1024 - 53) - (0 + Zpos k)) as [|j|j] eqn:Hn.
  - cbn [shr shr_m]. destruct (Z.leb _ _); [split; [done|lia]|done].
  - cbn [shr]. rewrite iter_shr_1_m by done. cbn [shr_m].
    assert (Zpos j = D - 53) as Hj by lia.
    pose proof (leading_bits_pos q ltac:(fold D; lia)) as Hq'. fold D in Hq'.
    rewrite <- Hj in Hq'.
    destruct (Z.shiftr (Zpos q) (Zpos j)) as [|t|t]; [lia| |lia].
    destruct (Z.leb _ _); [split; [done|lia]|done].
  - cbn [shr shr_m]. destruct (Z.leb _ _); [split; [done|lia]|done].
Qed.

Lemma binary_round_aux_exact_sign sx m e :
  Zpos (digits2_pos m) = 53 -> -1074 <= e <= 971 ->
  binary_round_aux 53 1024 sx (Zpos m) e loc_Exact = S754_finite sx m e.
Proof.
  intros Hd He.
  unfold binary_round_aux, shr_fexp, fexp, emin, Zdigits2. rewrite Hd.
  assert (Z.max (53 + e - 53) (3 - 1024 - 53) - e = 0) as -> by lia.
  cbn [shr shr_record_of_loc loc_of_shr_record shr_m round_nearest_even].
  rewrite Hd.
  assert (Z.max (53 + e - 53) (3 - 1024 - 53) - e = 0) as -> by lia.
  cbn [shr shr_record_of_loc loc_of_shr_record shr_m round_nearest_even].
  destruct (Z.leb_spec e (1024 - 53)); [done|lia].
Qed.

(** The conversion of a nonzero integer keeps its sign, has an exponent of
    at most 0 below [2 ^ 53] in magnitude and of at least 1 from there on. *)
Lemma binary_round_shape sx p :
  match binary_round 53 1024 sx p 0 with
  | S754_finite s m e =>
      s = sx /\ (Zpos p < 2 ^ 53 -> e <= 0) /\ (2 ^ 53 <= Zpos p -> 1 <= e)
  | S754_infinity s => s = sx /\ 2 ^ 53 <= Zpos p
  | _ => False
  end.
Proof.
  pose proof (digits2_pos_lower p) as Hlo. pose proof (digits2_pos_upper p) as Hup.
  destruct (Z_le_gt_dec (Zpos (digits2_pos p)) 53) as [Hd|Hd].
  - assert (Zpos p < 2 ^ 53) as Hsmall.
    { eapply Z.lt_le_trans; [exact Hup|]. apply Z.pow_le_mono_r; lia. }
    unfold binary_round, shl_align, fexp, emin.
    remember (Z.max (Z.pos (digits2_pos p) + 0 - 53) (3 - 1024 - 53)) as ex eqn:Hex.
    assert (ex = Z.pos (digits2_pos p) - 53) as Hex' by lia.
    destruct (ex - 0) as [|q|q] eqn:Hq; [|lia|].
    + rewrite binary_round_aux_exact_sign by lia. split; [done|]. split; lia.
    + rewrite binary_round_aux_exact_sign; [|rewrite digits2_pos_iter; lia|lia].
      split; [done|]. split; lia.
  - assert (2 ^ 53 <= Zpos p) as Hbig.
    { etrans; [|exact Hlo]. apply Z.pow_le_mono_r; lia. }
    unfold binary_round, shl_align, fexp, emin.
    remember (Z.max (Z.pos (digits2_pos p) + 0 - 53) (3 - 1024 - 53)) as ex eqn:Hex.
    assert (ex = Z.pos (digits2_pos p) - 53) as Hex' by lia.
    pose proof (binary_round_aux_big sx p ltac:(lia)) as Hshape.
    destruct (ex - 0) as [|q|q] eqn:Hq; [lia| |lia].
    destruct (binary_round_aux 53 1024 sx (Z.pos p) 0 loc_Exact); try done.
    destruct Hshape as [-> He]. split; [done|]. split; lia.
Qed.

(** The key of an id below [2 ^ 53] is the key of no other integer. *)
Lemma fillerKey_small_unique a b :
  0 <= a < 2 ^ 53 -> a <> b -> fillerKey a <> fillerKey b.
Proof.
  intros Ha Hne Heq.
  destruct (decide (0 <= b < 2 ^ 53)) as [Hb|Hb].
  { apply Hne. apply fillerKey_inj; [lia|lia|done]. }
  unfold fillerKey, JS.Number, binary_normalize, JS.prec, JS.emax in Heq.
  destruct b as [|pb|pb]; [lia| |].
  - pose proof (binary_round_shape false pb) as Hsb.
    destruct (binary_round 53 1024 false pb 0); try done.
    + destruct a as [|pa|pa]; [done| |lia].
      pose proof (binary_round_shape false pa) as Hsa.
      destruct (binary_round 53 1024 false pa 0); try done.
      destruct Hsa as (_ & Hbig). simpl in Heq. lia.
    + destruct a as [|pa|pa]; [done| |lia].
      pose proof (binary_round_shape false pa) as Hsa.
      destruct (binary_round 53 1024 false pa 0); try done.
      simpl in Heq. injection Heq as _ _ He.
      destruct Hsa as (_ & Hsmall & _), Hsb as (_ & _ & Hbig). lia.
  - pose proof (binary_round_shape true pb) as Hsb.
    destruct (binary_round 53 1024 true pb 0); try done.
    + destruct Hsb as [-> _].
      destruct a as [|pa|pa]; [done| |lia].
      pose proof (binary_round_shape false pa) as Hsa.
      destruct (binary_round 53 1024 false pa 0); try done.
      destruct Hsa as [-> _]. done.
    + destruct Hsb as (-> & _).
      destruct a as [|pa|pa]; [done| |lia].
      pose proof (binary_round_shape false pa) as Hsa.
      destruct (binary_round 53 1024 false pa 0); try done.
      destruct Hsa as (-> & _). done.
Qed.

(** C8, amended: the filler collection is a mapping in which, for an id
    below [2 ^ 53], the last declaration carrying that [withdrawId]
    determines the stored value, [Number(withdrawFillerId)], whatever ids
    the other declarations carry, and such an id is stored under a key that
    no other id shares. *)
Theorem filler_later_event_wins st (pre post : list Log) (e : WithdrawFillerLog) (id : Z) :
  withdrawId e = Some id ->
  0 <= id < 2 ^ 53 ->
  Forall (fun log =>
            match log with
            | WithdrawFillerDeclared e' => withdrawId e' <> Some id
            | _ => True
            end) post ->
  withdrawFillerLogs (forEach (pre ++ WithdrawFillerDeclared e :: post) st) !! fillerKey id
  = Some (JS.NumberU (withdrawFillerId e)) /\
  (forall a b, 0 <= a < 2 ^ 53 -> a <> b -> fillerKey a <> fillerKey b).
Proof.
  intros He Hid Hpost. split; [|apply fillerKey_small_unique].
  rewrite forEach_withdrawFillerLogs, fillersOf_app.
  change (fillersOf (WithdrawFillerDeclared e :: post)) with (e :: fillersOf post).
  replace (fillerKey id) with (JS.propertyKey (JS.NumberU (withdrawId e)))
    by by rewrite He.
  apply upsertFiller_fold_last. rewrite He. clear pre st.
  induction post as [|log post IH]; [constructor|].
  apply Forall_cons in Hpost as [Hlog Hpost].
  destruct log as [?|?|e']; [by apply IH..|].
  change (fillersOf (WithdrawFillerDeclared e' :: post)) with (e' :: fillersOf post).
  constructor; [|by apply IH].
  destruct (withdrawId e') as [id'|]; simpl.
  - intros Heq. symmetry in Heq. revert Heq. apply fillerKey_small_unique; [done|].
    intros ->. by apply Hlog.
  - intros Heq. apply (fillerKey_not_NaN id); [lia|done].
Qed.

Lemma filler_later_event_wins_witness :
  withdrawFillerLogs
    (forEach ([Deposit deposit7; WithdrawFillerDeclared (filler 3 5)]
                ++ WithdrawFillerDeclared (filler 3 6)
                :: [Withdrawal withdrawal3; WithdrawFillerDeclared (filler (2 ^ 53 + 1) 9)])
       initialState) !! fillerKey 3
  = Some (JS.NumberU (withdrawFillerId (filler 3 6))) /\
  (forall a b, 0 <= a < 2 ^ 53 -> a <> b -> fillerKey a <> fillerKey b).
Proof.
  apply (filler_later_event_wins initialState
           [Deposit deposit7; WithdrawFillerDeclared (filler 3 5)]
           [Withdrawal withdrawal3; WithdrawFillerDeclared (filler (2 ^ 53 + 1) 9)]
           (filler 3 6) 3).
  - reflexivity.
  - lia.
  - repeat constructor. simpl. discriminate.
Defined.

(** ** What a run leaves in the collections *)

Lemma windowLogs_cons client w ws :
  windowLogs client (w :: ws)
  = match getLogs client w.1 w.2 with
    | Some logs => logs ++ windowLogs client ws
    | None => windowLogs client ws
    end.
Proof. unfold windowLogs. simpl. by destruct (getLogs client w.1 w.2). Qed.

Lemma fold_windowState_forEach client blockNumber ws st :
  let st' := fold_left (windowState client blockNumber) ws st in
  depositLogs st' = depositLogs (forEach (windowLogs client ws) st) /\
  withdrawLogs st' = withdrawLogs (forEach (windowLogs client ws) st) /\
  withdrawFillerLogs st' = withdrawFillerLogs (forEach (windowLogs client ws) st).
Proof.
  revert st. induction ws as [|w ws IH]; intros st; [done|].
  simpl. rewrite windowLogs_cons.
  destruct (IH (windowState client blockNumber st w)) as (-> & -> & ->).
  unfold windowState.
  destruct (getLogs client w.1 w.2) as [logs|].
  - unfold forEach. rewrite fold_left_app. fold (forEach logs st).
    rewrite !(forEach_depositLogs (windowLogs client ws)),
            !(forEach_withdrawLogs (windowLogs client ws)),
            !(forEach_withdrawFillerLogs (windowLogs client ws)).
    done.
  - rewrite !(forEach_depositLogs (windowLogs client ws)),
            !(forEach_withdrawLogs (windowLogs client ws)),
            !(forEach_withdrawFillerLogs (windowLogs client ws)).
    done.
Qed.

(** A run dispatches the entries of its successful windows, in order, and
    nothing else touches the collections. *)
Lemma fetchResources_collections client st :
  depositLogs (fetchResources client st).1
  = depositLogs st ++ depositsOf (scannedLogs client) /\
  withdrawLogs (fetchResources client st).1
  = withdrawLogs st ++ withdrawalsOf (scannedLogs client) /\
  withdrawFillerLogs (fetchResources client st).1
  = fold_left upsertFiller (fillersOf (scannedLogs client)) (withdrawFillerLogs st).
Proof.
  unfold scannedLogs. destruct (getBlockNumber client) as [blockNumber|] eqn:Hh.
  - rewrite (fetchResources_ok _ _ _ Hh). simpl.
    destruct (fold_windowState_forEach client blockNumber (windowsFrom blockNumber 0)
                (setIsLoaded false st)) as (-> & -> & ->).
    by rewrite forEach_depositLogs, forEach_withdrawLogs, forEach_withdrawFillerLogs.
  - unfold fetchResources. rewrite Hh. simpl. by rewrite !app_nil_r.
Qed.

(** C9 as stated fails on the filler mapping: the entry for withdrawal 3
    that [staleState] holds is overwritten by the run of [flakyNode]. *)
Lemma scan_overwrites_filler_entry :
  withdrawFillerLogs staleState !! fillerKey 3 = Some (JS.Number 9) /\
  withdrawFillerLogs (fetchResources flakyNode staleState).1 !! fillerKey 3
  = Some (JS.Number 6) /\
  JS.Number 6 <> JS.Number 9.
Proof.
  split; [by vm_compute|]. split; [|by vm_compute].
  destruct (fetchResources_collections flakyNode staleState) as (_ & _ & ->).
  by vm_compute.
Qed.

(** C9, amended: a run removes nothing.  The deposit and withdrawal entries
    present before it stay where they are, unchanged, and the entries of the
    run are appended after them, so a second run on the same node appends
    them once more; every key of the filler mapping stays, and its value is
    unchanged unless the run dispatches a declaration with that key. *)
Theorem scan_appends client st :
  let st' := (fetchResources client st).1 in
  let st'' := (fetchResources client st').1 in
  depositLogs st' = depositLogs st ++ depositsOf (scannedLogs client) /\
  withdrawLogs st' = withdrawLogs st ++ withdrawalsOf (scannedLogs client) /\
  (forall k, is_Some (withdrawFillerLogs st !! k) -> is_Some (withdrawFillerLogs st' !! k)) /\
  (forall k,
     Forall (fun a => JS.propertyKey (JS.NumberU (withdrawId a)) <> k)
            (fillersOf (scannedLogs client)) ->
     withdrawFillerLogs st' !! k = withdrawFillerLogs st !! k) /\
  depositLogs st''
  = depositLogs st ++ depositsOf (scannedLogs client) ++ depositsOf (scannedLogs client) /\
  withdrawLogs st''
  = withdrawLogs st ++ withdrawalsOf (scannedLogs client) ++ withdrawalsOf (scannedLogs client).
Proof.
  intros st' st''. subst st''.
  destruct (fetchResources_collections client st') as (-> & -> & _). subst st'.
  destruct (fetchResources_collections client st) as (-> & -> & ->).
  rewrite <- !app_assoc.
  repeat split.
  - apply upsertFiller_fold_is_Some.
  - apply upsertFiller_fold_other.
Qed.

Lemma scan_appends_witness :
  depositLogs (fetchResources flakyNode staleState).1
  = depositLogs staleState ++ depositsOf (scannedLogs flakyNode) /\
  depositLogs (fetchResources flakyNode (fetchResources flakyNode staleState).1).1
  = depositLogs staleState ++ depositsOf (scannedLogs flakyNode)
      ++ depositsOf (scannedLogs flakyNode).
Proof.
  pose proof (scan_appends flakyNode staleState) as (Hd & _ & _ & _ & Hdd & _).
  split; [exact Hd|exact Hdd].
Defined.

(** After a page load and two runs on [flakyNode], every deposit is there twice. *)
Example two_runs_duplicate :
  depositLogs (fetchResources flakyNode (fetchResources flakyNode initialState).1).1
  = [deposit7; deposit7; deposit7; deposit7].
Proof. by vm_compute. Qed.

(** ** [reverseHex] on hex strings *)

Section ReverseHex.

Local Open Scope string_scope.
Local Arguments String.append !_ _ / : simpl nomatch.

Lemma append_nil_r (s : string) : s ++ "" = s.
Proof. induction s as [|c s IH]; simpl; congruence. Qed.

Lemma append_assoc (s1 s2 s3 : string) : (s1 ++ s2) ++ s3 = s1 ++ (s2 ++ s3).
Proof. induction s1 as [|c s1 IH]; simpl; congruence. Qed.

Lemma length_append (s1 s2 : string) :
  String.length (s1 ++ s2) = (String.length s1 + String.length s2)%nat.
Proof. induction s1 as [|c s1 IH]; simpl; congruence. Qed.

Lemma isHexString_append (s1 s2 : string) :
  isHexString (s1 ++ s2) = (isHexString s1 && isHexString s2)%bool.
Proof.
  induction s1 as [|c s1 IH]; simpl; [done|]. rewrite IH. by destruct (isHexDigit c).
Qed.

(** Induction two characters at a time. *)
Lemma even_string_ind (P : string -> Prop) :
  P "" ->
  (forall a b r, Nat.Even (String.length r) -> P r -> P (String a (String b r))) ->
  forall s, Nat.Even (String.length s) -> P s.
Proof.
  intros Hnil Hstep s [n Hn]. revert s Hn.
  induction n as [|n IH]; intros s Hn.
  - destruct s; [done|simpl in Hn; lia].
  - destruct s as [|a [|b r]]; simpl in Hn; [lia..|].
    apply Hstep; [exists n; lia|apply IH; lia].
Qed.

Lemma hexDigit_not_lineTerminator c :
  isHexDigit c = true -> Str.isLineTerminator c = false.
Proof. destruct c as [[] [] [] [] [] [] [] []]; by vm_compute. Qed.

Lemma hexDigit_not_x c : isHexDigit c = true -> c <> "x"%char.
Proof. intros Hc ->. by vm_compute in Hc. Qed.

Lemma hexString_no_prefix s : isHexString s = true -> Str.startsWith s "0x" = false.
Proof.
  unfold Str.startsWith.
  destruct s as [|a [|b r]]; cbn [String.prefix isHexString]; [done| |].
  - by destruct (Ascii.ascii_dec "0" a).
  - intros [Ha [Hb _]%andb_prop]%andb_prop.
    destruct (Ascii.ascii_dec "0" a); [|done].
    destruct (Ascii.ascii_dec "x" b) as [<-|]; [|done].
    by vm_compute in Hb.
Qed.

Lemma matches12_hex s :
  Nat.Even (String.length s) -> isHexString s = true -> Str.matches12 s = pairsOf s.
Proof.
  revert s.
  apply (even_string_ind
           (fun s => isHexString s = true -> Str.matches12 s = pairsOf s)); [done|].
  intros a b r Hr IH. cbn [isHexString]. intros [Ha [Hb Hrest]%andb_prop]%andb_prop.
  cbn [Str.matches12 pairsOf].
  rewrite (hexDigit_not_lineTerminator a Ha), (hexDigit_not_lineTerminator b Hb).
  by rewrite IH.
Qed.

Lemma join_cons x l : Str.join (x :: l) = x ++ Str.join l.
Proof. unfold Str.join. destruct l; simpl; [by rewrite append_nil_r|done]. Qed.

Lemma join_app l1 l2 : Str.join (l1 ++ l2)%list = Str.join l1 ++ Str.join l2.
Proof.
  induction l1 as [|x l1 IH]; [done|].
  rewrite <- app_comm_cons, !join_cons, IH. by rewrite append_assoc.
Qed.

Lemma join_rev_pairsOf s : Str.join (rev (pairsOf s)) = reversedPairs s.
Proof.
  enough (Str.join (rev (pairsOf s)) = reversedPairs s /\
          forall c, Str.join (rev (pairsOf (String c s))) = reversedPairs (String c s))
    as [Hs _] by exact Hs.
  induction s as [|a s [IH1 IH2]]; [done|].
  split; [apply IH2|]. intros c.
  cbn [pairsOf reversedPairs rev]. rewrite join_app, join_cons, IH1.
  cbn [Str.join String.concat]. by rewrite append_nil_r.
Qed.

(** What [reverseHex] computes once the prefix is gone. *)
Lemma reverseHex_unprefixed s :
  Nat.Even (String.length s) -> isHexString s = true -> reverseHex s = reversedPairs s.
Proof.
  intros Hev Hhex. unfold reverseHex.
  rewrite (hexString_no_prefix s Hhex). unfold Str.match12.
  rewrite (matches12_hex s Hev Hhex), <- join_rev_pairsOf.
  destruct (pairsOf s) as [|x l] eqn:Hp; [done|].
  cbn [option_map Str.orEmpty]. by destruct (Str.join (rev (x :: l))).
Qed.

Lemma reversedPairs_append s1 s2 :
  Nat.Even (String.length s1) ->
  reversedPairs (s1 ++ s2) = reversedPairs s2 ++ reversedPairs s1.
Proof.
  revert s1.
  apply (even_string_ind
           (fun s1 => reversedPairs (s1 ++ s2) = reversedPairs s2 ++ reversedPairs s1)).
  - simpl. by rewrite append_nil_r.
  - intros a b r Hr IH. simpl. by rewrite IH, append_assoc.
Qed.

Lemma reversedPairs_even s :
  Nat.Even (String.length s) -> Nat.Even (String.length (reversedPairs s)).
Proof.
  revert s.
  apply (even_string_ind (fun s => Nat.Even (String.length (reversedPairs s)))).
  - by exists O.
  - intros a b r Hr [n Hn]. simpl. rewrite length_append, Hn. simpl. exists (S n). lia.
Qed.

Lemma reversedPairs_hex s :
  Nat.Even (String.length s) -> isHexString s = true ->
  isHexString (reversedPairs s) = true.
Proof.
  revert s.
  apply (even_string_ind
           (fun s => isHexString s = true -> isHexString (reversedPairs s) = true));
    [done|].
  intros a b r Hr IH. cbn [isHexString reversedPairs].
  intros [Ha [Hb Hrest]%andb_prop]%andb_prop.
  rewrite isHexString_append, (IH Hrest). cbn [isHexString]. by rewrite Ha, Hb.
Qed.

Lemma reversedPairs_involutive s :
  Nat.Even (String.length s) -> reversedPairs (reversedPairs s) = s.
Proof.
  revert s. apply (even_string_ind (fun s => reversedPairs (reversedPairs s) = s)); [done|].
  intros a b r Hr IH. cbn [reversedPairs].
  rewrite reversedPairs_append by by apply reversedPairs_even.
  by rewrite IH.
Qed.

(** C10: on a hex string [s] of even length, with or without the prefix
    ["0x"] in front, [reverseHex] returns the two-character pairs of [s]
    in reverse order; applied twice to [s] it gives [s] back; and it maps
    the empty string to the empty string. *)
Theorem reverseHex_reverses_pairs (s : string) :
  isHexString s = true ->
  Nat.Even (String.length s) ->
  reverseHex ("0x" ++ s) = reversedPairs s /\
  reverseHex s = reversedPairs s /\
  reverseHex (reverseHex s) = s /\
  reverseHex "" = "".
Proof.
  intros Hhex Hev.
  pose proof (reverseHex_unprefixed s Hev Hhex) as Hs.
  split; [|split; [done|split; [|done]]].
  - unfold reverseHex in *. rewrite (hexString_no_prefix s Hhex) in Hs.
    assert (Str.startsWith ("0x" ++ s) "0x" = true) as -> by by destruct s.
    change (Str.slice 2 ("0x" ++ s)) with s. exact Hs.
  - rewrite Hs, reverseHex_unprefixed.
    + by apply reversedPairs_involutive.
    + by apply reversedPairs_even.
    + by apply reversedPairs_hex.
Qed.

Lemma reverseHex_reverses_pairs_witness :
  reverseHex ("0x" ++ "0123456789abcdef") = reversedPairs "0123456789abcdef" /\
  reverseHex "0123456789abcdef" = reversedPairs "0123456789abcdef" /\
  reverseHex (reverseHex "0123456789abcdef") = "0123456789abcdef" /\
  reverseHex "" = "".
Proof.
  apply (reverseHex_reverses_pairs "0123456789abcdef").
  - reflexivity.
  - exists 8%nat. reflexivity.
Defined.

Example reverseHex_txid : reverseHex "0x0123456789abcdef" = "efcdab8967452301".
Proof. reflexivity. Qed.

(** On a string of odd length the last character forms a match of its own. *)
Example reverseHex_odd : reverseHex "abc" = "cab".
Proof. reflexivity. Qed.

End ReverseHex.

(** ** Progress values *)

Example hundred_is_100 : hundred = JS.Number 100 /\ JS.intValue hundred = 100.
Proof. by vm_compute. Qed.

(** C3: the progress values of a scan of a chain of height 2500 are 40, 80
    and then [2501 / 2500 * 100], which is above 100; at height 0 the only
    value is [1 / 0 * 100], which is [Infinity]. *)
Theorem progress_leaves_percent_range :
  progressValues (fetchResources (quietNode 2500) initialState).2
  = [progressAt 2500 1000; progressAt 2500 2000; progressAt 2500 2501] /\
  progressAt 2500 2501 = progress2501 /\
  JS.leb progress2501 hundred = false /\
  JS.ltb hundred progress2501 = true /\
  progressValues (fetchResources (quietNode 0) initialState).2 = [JS.Infinity] /\
  JS.leb JS.Infinity hundred = false.
Proof. by vm_compute. Qed.

(** C4: for a chain of height 2500 the windows are [0, 999], [1000, 1999]
    and [2000, 2500], and the progress values after them are exactly 40,
    exactly 80 and then the double [100.04...]: the scan completes with a
    progress that is not 100. *)
Theorem progress_ends_above_100 :
  queriedWindows (fetchResources (quietNode 2500) initialState).2
  = [(0, 999); (1000, 1999); (2000, 2500)] /\
  progressValues (fetchResources (quietNode 2500) initialState).2
  = [JS.Number 40; JS.Number 80; progress2501] /\
  scanStatus (fetchResources (quietNode 2500) initialState) = Completed /\
  progress (fetchResources (quietNode 2500) initialState).1 = progress2501 /\
  JS.eqb progress2501 hundred = false /\
  JS.ltb hundred progress2501 = true.
Proof. by vm_compute. Qed.

(** ** Further properties of the scan *)

(** X1: every block from 0 to the chain height lies in exactly one queried
    window, and no window reaches outside that range. *)
Theorem scan_covers_each_block_once client st (H b : Z) :
  getBlockNumber client = Some H ->
  0 <= b <= H ->
  let ws := queriedWindows (fetchResources client st).2 in
  (exists (i : nat) w,
     ws !! i = Some w /\ w.1 <= b <= w.2 /\
     forall (j : nat) w', ws !! j = Some w' -> w'.1 <= b <= w'.2 -> j = i) /\
  (forall (j : nat) w', ws !! j = Some w' -> 0 <= w'.1 /\ w'.1 <= w'.2 <= H).
Proof.
  intros Hh Hb ws. subst ws. rewrite (fetchResources_queriedWindows _ _ _ Hh).
  pose proof (windowsFrom_stop H 0 ltac:(lia)) as Hstop.
  split.
  - exists (Z.to_nat (b / 1000)), (1000 * (b / 1000), Z.min (1000 * (b / 1000) + 999) H).
    assert (0 <= b / 1000) as Hq by (Z.div_mod_to_equations; lia).
    assert (1000 * (b / 1000) <= b < 1000 * (b / 1000) + 1000) as Hr
      by (Z.div_mod_to_equations; lia).
    split; [|split].
    + apply windowsFrom_lookup. rewrite Z2Nat.id by done. split; [|f_equal; lia].
      destruct (Nat.lt_ge_cases (Z.to_nat (b / 1000)) (length (windowsFrom H 0)))
        as [|Hge]; [done|exfalso]. lia.
    + simpl. lia.
    + intros j w' [Hj ->]%windowsFrom_lookup. simpl. intros Hin. lia.
  - intros j w' [Hj ->]%windowsFrom_lookup.
    apply windowsFrom_start_le in Hj. simpl. lia.
Qed.

Lemma scan_covers_each_block_once_witness :
  let ws := queriedWindows (fetchResources flakyNode initialState).2 in
  (exists (i : nat) w,
     ws !! i = Some w /\ w.1 <= 1999 <= w.2 /\
     forall (j : nat) w', ws !! j = Some w' -> w'.1 <= 1999 <= w'.2 -> j = i) /\
  (forall (j : nat) w', ws !! j = Some w' -> 0 <= w'.1 /\ w'.1 <= w'.2 <= 2500).
Proof.
  apply (scan_covers_each_block_once flakyNode initialState 2500 1999); [reflexivity|lia].
Defined.

Lemma fold_windowState_progress client blockNumber ws st :
  progress (fold_left (windowState client blockNumber) ws st)
  = default (progress st) (last (map (fun w => progressAt blockNumber (w.2 + 1)) ws)).
Proof.
  induction ws as [|w ws IH] using rev_ind; [done|].
  rewrite fold_left_app, map_app. simpl. by rewrite last_snoc.
Qed.

(** X2: the progress value after the window [[from, to]] is
    [Number(to + 1) / Number(H) * 100], whether its query failed or not;
    a completed scan of a chain of height [H >= 0] leaves
    [Number(H + 1) / Number(H) * 100] in the state, whatever was there
    before. *)
Theorem progress_follows_the_cursor client st (H : Z) :
  0 <= H ->
  getBlockNumber client = Some H ->
  let r := fetchResources client st in
  progressValues r.2 = map (fun w => progressAt H (w.2 + 1)) (queriedWindows r.2) /\
  last (progressValues r.2) = Some (progressAt H (H + 1)) /\
  progress r.1 = progressAt H (H + 1).
Proof.
  intros Hpos Hh r. subst r.
  rewrite (fetchResources_progressValues _ _ _ Hh), (fetchResources_queriedWindows _ _ _ Hh).
  assert (last (map (fun w : Z * Z => progressAt H (w.2 + 1)) (windowsFrom H 0))
          = Some (progressAt H (H + 1))) as Hlast.
  { pose proof (windowsFrom_stop H 0 ltac:(lia)) as Hstop.
    set (n := length (windowsFrom H 0)) in *.
    change (map ?f ?l) with (f <$> l).
    rewrite last_lookup, length_fmap, list_lookup_fmap. fold n.
    assert (windowsFrom H 0 !! pred n
            = Some (0 + 1000 * Z.of_nat (pred n), Z.min (0 + 1000 * Z.of_nat (pred n) + 999) H))
      as -> by (apply windowsFrom_lookup; fold n; split; [lia|done]).
    simpl. do 2 f_equal. lia. }
  split; [done|]. split; [done|].
  rewrite (fetchResources_ok _ _ _ Hh). simpl.
  rewrite fold_windowState_progress, Hlast. done.
Qed.

Lemma progress_follows_the_cursor_witness :
  let r := fetchResources flakyNode staleState in
  progressValues r.2 = map (fun w => progressAt 2500 (w.2 + 1)) (queriedWindows r.2) /\
  last (progressValues r.2) = Some (progressAt 2500 (2500 + 1)) /\
  progress r.1 = progressAt 2500 (2500 + 1).
Proof.
  apply (progress_follows_the_cursor flakyNode staleState 2500); [lia|reflexivity].
Defined.

(** X3: a run that gets the chain height [H] is, in order:
    [setIsLoaded(false)], the height query, then for each window
    [[1000 * i, min (1000 * i + 999) H]] with [i] below
    [(H + 1000) / 1000], in increasing order of [i], its log query, the log
    of the response or of the error, and one progress update, and at the
    end [setIsLoaded(true)]; a query is never issued before the previous
    window has reported its progress. *)
Theorem run_is_sequential client st (H : Z) :
  getBlockNumber client = Some H ->
  (fetchResources client st).2
  = [CallSetIsLoaded false; CallGetBlockNumber]
      ++ concat (map (fun i : nat =>
                        let fromBlock := 1000 * Z.of_nat i in
                        let toBlock := Z.min (1000 * Z.of_nat i + 999) H in
                        [CallGetLogs fromBlock toBlock;
                         match getLogs client fromBlock toBlock with
                         | Some logs => ConsoleLog fromBlock toBlock logs
                         | None => ConsoleErrorLogs fromBlock toBlock
                         end;
                         CallSetProgress (progressAt H (toBlock + 1))])
                   (seq 0 (Z.to_nat ((H + 1000) / 1000))))
      ++ [CallSetIsLoaded true].
Proof.
  intros Hh. rewrite (fetchResources_ok _ _ _ Hh). cbn [snd].
  unfold windowsFrom, batchSize. rewrite map_map.
  replace (H - 0 + 1000) with (H + 1000) by lia.
  apply (f_equal (fun l => [CallSetIsLoaded false; CallGetBlockNumber]
                             ++ concat l ++ [CallSetIsLoaded true])).
  apply map_ext. intros i. unfold windowEffects. cbn [fst snd].
  replace (0 + 1000 * Z.of_nat i) with (1000 * Z.of_nat i) by lia.
  replace (1000 * Z.of_nat i + (1000 - 1)) with (1000 * Z.of_nat i + 999) by lia.
  done.
Qed.

Lemma run_is_sequential_witness :
  (fetchResources flakyNode initialState).2
  = [CallSetIsLoaded false; CallGetBlockNumber;
     CallGetLogs 0 999; ConsoleLog 0 999 sampleLogs; CallSetProgress (progressAt 2500 1000);
     CallGetLogs 1000 1999; ConsoleErrorLogs 1000 1999; CallSetProgress (progressAt 2500 2000);
     CallGetLogs 2000 2500; ConsoleLog 2000 2500 sampleLogs;
     CallSetProgress (progressAt 2500 2501);
     CallSetIsLoaded true].
Proof.
  exact (run_is_sequential flakyNode initialState 2500 eq_refl).
Defined.

Lemma omap_sublist {A B} (f : A -> option B) (l1 l2 : list A) :
  l1 `sublist_of` l2 -> omap f l1 `sublist_of` omap f l2.
Proof.
  induction 1 as [|x l1 l2 Hs IH|x l1 l2 Hs IH]; simpl.
  - constructor.
  - destruct (f x); [by constructor|done].
  - destruct (f x); [by constructor|done].
Qed.

Lemma windowLogs_sublist client client' ws :
  (forall f t logs, getLogs client f t = Some logs -> getLogs client' f t = Some logs) ->
  windowLogs client ws `sublist_of` windowLogs client' ws.
Proof.
  intros Hagree. induction ws as [|w ws IH]; [done|].
  rewrite !windowLogs_cons.
  destruct (getLogs client w.1 w.2) as [logs|] eqn:Hq.
  - rewrite (Hagree _ _ _ Hq). by apply sublist_app.
  - destruct (getLogs client' w.1 w.2); [by apply sublist_inserts_l|done].
Qed.

(** X4: failed windows only lose entries.  Against a node of the same
    height that returns the same entries wherever the first one answers,
    the deposits and withdrawals collected are a subsequence, in the same
    order, of those collected from the second node. *)
Theorem failures_only_lose_entries client client' st :
  getBlockNumber client' = getBlockNumber client ->
  (forall f t logs, getLogs client f t = Some logs -> getLogs client' f t = Some logs) ->
  depositLogs (fetchResources client st).1
    `sublist_of` depositLogs (fetchResources client' st).1 /\
  withdrawLogs (fetchResources client st).1
    `sublist_of` withdrawLogs (fetchResources client' st).1.
Proof.
  intros Hh Hagree.
  destruct (fetchResources_collections client st) as (-> & -> & _).
  destruct (fetchResources_collections client' st) as (-> & -> & _).
  assert (scannedLogs client `sublist_of` scannedLogs client') as Hs.
  { unfold scannedLogs. rewrite Hh. destruct (getBlockNumber client); [|done].
    by apply windowLogs_sublist. }
  split; (apply sublist_app; [done|]); by apply omap_sublist.
Qed.

Lemma failures_only_lose_entries_witness :
  depositLogs (fetchResources flakyNode initialState).1
    `sublist_of` depositLogs
       (fetchResources {| getBlockNumber := Some 2500;
                          getLogs := fun _ _ => Some sampleLogs |} initialState).1 /\
  withdrawLogs (fetchResources flakyNode initialState).1
    `sublist_of` withdrawLogs
       (fetchResources {| getBlockNumber := Some 2500;
                          getLogs := fun _ _ => Some sampleLogs |} initialState).1.
Proof.
  apply (failures_only_lose_entries flakyNode
           {| getBlockNumber := Some 2500; getLogs := fun _ _ => Some sampleLogs |}
           initialState).
  - reflexivity.
  - intros f t logs. simpl. destruct (f =? 1000); [discriminate|done].
Defined.

(** The entry of a key after a sequence of upserts. *)
Lemma upsertFiller_fold_lookup (l : list WithdrawFillerLog) (m : gmap JS.number JS.number) k :
  fold_left upsertFiller l m !! k
  = match lastFillerFor k l with
    | Some a => Some (JS.NumberU (withdrawFillerId a))
    | None => m !! k
    end.
Proof.
  unfold lastFillerFor. induction l as [|a l IH] using rev_ind; [done|].
  rewrite fold_left_app, filter_app. simpl. unfold upsertFiller at 1.
  destruct (decide (JS.propertyKey (JS.NumberU (withdrawId a)) = k)) as [Heq|Hne].
  - rewrite filter_cons_True by done. rewrite filter_nil, last_snoc.
    rewrite Heq. by rewrite lookup_insert_eq.
  - rewrite filter_cons_False by done. rewrite filter_nil, app_nil_r.
    by rewrite lookup_insert_ne.
Qed.

(** X5: after a run, the entry of the filler mapping under any key is the
    value of the last declaration of the run stored under that key, and the
    entry from before the run when the run has no declaration for it. *)
Theorem filler_entry_after_run client st (k : JS.number) :
  withdrawFillerLogs (fetchResources client st).1 !! k
  = match lastFillerFor k (fillersOf (scannedLogs client)) with
    | Some a => Some (JS.NumberU (withdrawFillerId a))
    | None => withdrawFillerLogs st !! k
    end.
Proof.
  destruct (fetchResources_collections client st) as (_ & _ & ->).
  apply upsertFiller_fold_lookup.
Qed.

Lemma scannedLogs_ext client client' :
  getBlockNumber client' = getBlockNumber client ->
  (forall f t, getLogs client' f t = getLogs client f t) ->
  scannedLogs client' = scannedLogs client.
Proof.
  intros Hh Hl. unfold scannedLogs. rewrite Hh.
  destruct (getBlockNumber client) as [blockNumber|]; [|done].
  induction (windowsFrom blockNumber 0) as [|w ws IH]; [done|].
  by rewrite !windowLogs_cons, Hl, IH.
Qed.

(** X6: a second run that gets the same chain height and, for every
    window, the same response or the same failure as the first one, leaves
    the filler mapping as the first run left it, while it appends the
    deposits and the withdrawals of the first run once more. *)
Theorem rerun_keeps_filler_mapping client client' st :
  getBlockNumber client' = getBlockNumber client ->
  (forall f t, getLogs client' f t = getLogs client f t) ->
  let st' := (fetchResources client st).1 in
  withdrawFillerLogs (fetchResources client' st').1 = withdrawFillerLogs st' /\
  depositLogs (fetchResources client' st').1
  = depositLogs st' ++ depositsOf (scannedLogs client) /\
  withdrawLogs (fetchResources client' st').1
  = withdrawLogs st' ++ withdrawalsOf (scannedLogs client).
Proof.
  intros Hh Hl st'.
  destruct (fetchResources_collections client' st') as (-> & -> & ->).
  rewrite (scannedLogs_ext client client' Hh Hl).
  split; [|done].
  apply map_eq. intros k. rewrite upsertFiller_fold_lookup. subst st'.
  destruct (fetchResources_collections client st) as (_ & _ & ->).
  rewrite upsertFiller_fold_lookup.
  by destruct (lastFillerFor k (fillersOf (scannedLogs client))).
Qed.

Lemma rerun_keeps_filler_mapping_witness :
  let st' := (fetchResources flakyNode staleState).1 in
  withdrawFillerLogs (fetchResources flakyNode st').1 = withdrawFillerLogs st' /\
  depositLogs (fetchResources flakyNode st').1
  = depositLogs st' ++ depositsOf (scannedLogs flakyNode) /\
  withdrawLogs (fetchResources flakyNode st').1
  = withdrawLogs st' ++ withdrawalsOf (scannedLogs flakyNode).
Proof.
  apply (rerun_keeps_filler_mapping flakyNode flakyNode staleState); reflexivity.
Defined.



(** X8: a declaration without [withdrawId] is stored under the key of NaN,
    where it replaces any earlier such declaration, and touches no entry of
    an id up to [2 ^ 53]. *)
Theorem undefined_withdrawId_goes_to_NaN st (a : WithdrawFillerLog) :
  withdrawId a = None ->
  let st' := dispatch st (WithdrawFillerDeclared a) in
  withdrawFillerLogs st' !! JS.propertyKey JS.NaN = Some (JS.NumberU (withdrawFillerId a)) /\
  (forall id, 0 <= id <= 2 ^ 53 ->
     withdrawFillerLogs st' !! fillerKey id = withdrawFillerLogs st !! fillerKey id).
Proof.
  intros Ha st'. subst st'. simpl. rewrite Ha. simpl. split.
  - apply lookup_insert_eq.
  - intros id Hid. apply lookup_insert_ne. intros Heq.
    by apply (fillerKey_not_NaN id Hid).
Qed.

Lemma undefined_withdrawId_goes_to_NaN_witness :
  let a := {| withdrawId := None; withdrawFillerId := Some 4 |} in
  let st' := dispatch staleState (WithdrawFillerDeclared a) in
  withdrawFillerLogs st' !! JS.propertyKey JS.NaN = Some (JS.NumberU (withdrawFillerId a)) /\
  (forall id, 0 <= id <= 2 ^ 53 ->
     withdrawFillerLogs st' !! fillerKey id = withdrawFillerLogs staleState !! fillerKey id).
Proof.
  apply (undefined_withdrawId_goes_to_NaN staleState
           {| withdrawId := None; withdrawFillerId := Some 4 |}).
  reflexivity.
Defined.

(** ** [reverseHex] on arbitrary strings *)

Section ReverseHexAll.

Local Open Scope string_scope.
Local Arguments String.append !_ _ / : simpl nomatch.

Lemma list_ascii_append (s1 s2 : string) :
  list_ascii_of_string (s1 ++ s2)
  = (list_ascii_of_string s1 ++ list_ascii_of_string s2)%list.
Proof. induction s1 as [|c s1 IH]; simpl; congruence. Qed.

Lemma list_ascii_length (s : string) : length (list_ascii_of_string s) = String.length s.
Proof. induction s as [|c s IH]; simpl; congruence. Qed.

(** The matches of the regular expression, put side by side, are the
    string without its line terminators. *)
Lemma join_matches12 s :
  list_ascii_of_string (Str.join (Str.matches12 s))
  = filter (fun c => Str.isLineTerminator c = false) (list_ascii_of_string s).
Proof.
  enough ((list_ascii_of_string (Str.join (Str.matches12 s))
           = filter (fun c => Str.isLineTerminator c = false) (list_ascii_of_string s)) /\
          forall a,
            list_ascii_of_string (Str.join (Str.matches12 (String a s)))
            = filter (fun c => Str.isLineTerminator c = false)
                (list_ascii_of_string (String a s)))
    as [Hs _] by exact Hs.
  induction s as [|b s [IH1 IH2]].
  - split; [done|]. intros a. cbn [Str.matches12 list_ascii_of_string].
    destruct (Str.isLineTerminator a) eqn:Ha.
    + by rewrite filter_cons_False by congruence.
    + by rewrite filter_cons_True by done.
  - split; [apply IH2|]. intros a.
    cbn [Str.matches12]. cbn [list_ascii_of_string].
    destruct (Str.isLineTerminator a) eqn:Ha.
    + rewrite filter_cons_False by congruence. apply IH2.
    + rewrite filter_cons_True by done.
      destruct (Str.isLineTerminator b) eqn:Hb.
      * rewrite filter_cons_False by congruence.
        rewrite join_cons, list_ascii_append, IH1. done.
      * rewrite filter_cons_True by done.
        rewrite join_cons, list_ascii_append, IH1. done.
Qed.

Lemma join_rev_Permutation (l : list string) :
  list_ascii_of_string (Str.join (rev l)) ≡ₚ list_ascii_of_string (Str.join l).
Proof.
  induction l as [|x l IH]; [done|].
  cbn [rev]. rewrite join_app, (join_cons x l), !list_ascii_append, IH.
  change (Str.join [x]) with x. apply Permutation_app_comm.
Qed.

Lemma filter_Forall_id {A} (P : A -> Prop) `{forall x, Decision (P x)} (l : list A) :
  Forall P l -> filter P l = l.
Proof.
  induction 1 as [|x l Hx Hl IH]; [done|].
  rewrite filter_cons_True by done. by rewrite IH.
Qed.

Lemma reverseHex_join s : reverseHex s = Str.join (rev (Str.matches12 (unprefixed s))).
Proof.
  unfold reverseHex, Str.match12. fold (unprefixed s).
  destruct (Str.matches12 (unprefixed s)) as [|x l]; [done|].
  cbn [option_map Str.orEmpty]. by destruct (Str.join (rev (x :: l))).
Qed.

(** The characters of the result, for the 8-bit strings of the model. *)
Lemma reverseHex_characters (s : string) :
  list_ascii_of_string (reverseHex s)
    ≡ₚ filter (fun c => Str.isLineTerminator c = false) (list_ascii_of_string (unprefixed s)) /\
  (Forall (fun c => Str.isLineTerminator c = false) (list_ascii_of_string (unprefixed s)) ->
   String.length (reverseHex s) = String.length (unprefixed s)).
Proof.
  assert (list_ascii_of_string (reverseHex s)
            ≡ₚ filter (fun c => Str.isLineTerminator c = false)
                 (list_ascii_of_string (unprefixed s))) as Hperm.
  { rewrite reverseHex_join, join_rev_Permutation. by rewrite join_matches12. }
  split; [done|]. intros Hall.
  rewrite <- !list_ascii_length, Hperm. f_equal.
  by apply filter_Forall_id.
Qed.

(** X9: for every string of 8-bit characters, among which the line feed
    and the carriage return are the line terminators, [reverseHex] returns
    the characters of the string without its prefix ["0x"], line feeds and
    carriage returns left out, in another order; without them the length
    is kept. *)
Theorem reverseHex_keeps_characters (s : string) :
  list_ascii_of_string (reverseHex s)
    ≡ₚ filter (fun c => c <> "010"%char /\ c <> "013"%char)
         (list_ascii_of_string (unprefixed s)) /\
  (Forall (fun c => c <> "010"%char /\ c <> "013"%char)
     (list_ascii_of_string (unprefixed s)) ->
   String.length (reverseHex s) = String.length (unprefixed s)).
Proof.
  assert (forall c, Str.isLineTerminator c = false <-> c <> "010"%char /\ c <> "013"%char)
    as Hlt.
  { intros c. unfold Str.isLineTerminator. rewrite orb_false_iff.
    by rewrite !(Ascii.eqb_neq c). }
  destruct (reverseHex_characters s) as [Hperm Hlen]. split.
  - rewrite Hperm. by rewrite (list_filter_iff _ _ _ Hlt).
  - intros Hall. apply Hlen. eapply Forall_impl; [exact Hall|].
    intros c Hc. by apply Hlt.
Qed.

Lemma reverseHex_keeps_characters_witness :
  list_ascii_of_string (reverseHex "0xabc")
    ≡ₚ filter (fun c => c <> "010"%char /\ c <> "013"%char)
         (list_ascii_of_string (unprefixed "0xabc")) /\
  String.length (reverseHex "0xabc") = String.length (unprefixed "0xabc").
Proof.
  destruct (reverseHex_keeps_characters "0xabc") as [Hperm Hlen].
  split; [exact Hperm|]. apply Hlen. repeat constructor; discriminate.
Defined.

Lemma pairsOf_matches12_odd s c :
  Nat.Even (String.length s) -> isHexString s = true -> isHexDigit c = true ->
  Str.matches12 (s ++ String c "") = (pairsOf s ++ [String c ""])%list.
Proof.
  intros Hev Hs Hc. revert s Hev Hs.
  apply (even_string_ind
           (fun s => isHexString s = true ->
                     Str.matches12 (s ++ String c "") = (pairsOf s ++ [String c ""])%list)).
  - intros _. cbn. by rewrite (hexDigit_not_lineTerminator c Hc).
  - intros a b r Hr IH. cbn [isHexString].
    intros [Ha [Hb Hrest]%andb_prop]%andb_prop.
    cbn [String.append Str.matches12 pairsOf].
    rewrite (hexDigit_not_lineTerminator a Ha), (hexDigit_not_lineTerminator b Hb).
    by rewrite IH.
Qed.

(** X10: on a hex string of odd length the last character is a match of
    its own and comes first in the result, before the pairs in reverse
    order. *)
Theorem reverseHex_odd_length (s : string) (c : ascii) :
  isHexString s = true ->
  Nat.Even (String.length s) ->
  isHexDigit c = true ->
  reverseHex (s ++ String c "") = String c (reversedPairs s).
Proof.
  intros Hs Hev Hc.
  assert (isHexString (s ++ String c "") = true) as Hhex.
  { rewrite isHexString_append, Hs. cbn [isHexString]. by rewrite Hc. }
  rewrite reverseHex_join. unfold unprefixed.
  rewrite (hexString_no_prefix _ Hhex), (pairsOf_matches12_odd s c Hev Hs Hc).
  rewrite rev_app_distr. cbn [rev app]. by rewrite join_cons, join_rev_pairsOf.
Qed.

Lemma reverseHex_odd_length_witness : reverseHex ("abcd" ++ String "e" "") = String "e" (reversedPairs "abcd").
Proof.
  apply (reverseHex_odd_length "abcd" "e"); [reflexivity|by exists 2%nat|reflexivity].
Defined.

Lemma isHexString_Forall s :
  isHexString s = true <-> Forall (fun c => isHexDigit c = true) (list_ascii_of_string s).
Proof.
  induction s as [|c s IH]; simpl.
  - split; [constructor|done].
  - rewrite andb_true_iff, Forall_cons. by rewrite IH.
Qed.

(** X11: on a hex string of any length, with or without the prefix ["0x"]
    in front, the result is a hex string of the same length, and it never
    starts with ["0x"]. *)
Theorem reverseHex_hex_closed (s : string) :
  isHexString s = true ->
  reverseHex ("0x" ++ s) = reverseHex s /\
  isHexString (reverseHex s) = true /\
  String.length (reverseHex s) = String.length s /\
  Str.startsWith (reverseHex s) "0x" = false.
Proof.
  intros Hs.
  assert (unprefixed s = s) as Hun
    by (unfold unprefixed; by rewrite (hexString_no_prefix s Hs)).
  assert (Forall (fun c => Str.isLineTerminator c = false) (list_ascii_of_string s)) as Hnl.
  { apply isHexString_Forall in Hs. eapply Forall_impl; [exact Hs|].
    intros c Hc. by apply hexDigit_not_lineTerminator. }
  destruct (reverseHex_characters s) as [Hperm Hlen]. rewrite Hun in Hperm, Hlen.
  assert (isHexString (reverseHex s) = true) as Hhex.
  { apply isHexString_Forall.
    rewrite (filter_Forall_id _ _ Hnl) in Hperm.
    apply (Permutation_Forall (symmetry Hperm)). by apply isHexString_Forall. }
  split; [|split; [done|split; [by apply Hlen|by apply hexString_no_prefix]]].
  rewrite !reverseHex_join. f_equal. f_equal. f_equal.
  rewrite Hun. unfold unprefixed.
  assert (Str.startsWith ("0x" ++ s) "0x" = true) as -> by by destruct s.
  done.
Qed.

Lemma reverseHex_hex_closed_witness :
  reverseHex ("0x" ++ "0123456789abcde") = reverseHex "0123456789abcde" /\
  isHexString (reverseHex "0123456789abcde") = true /\
  String.length (reverseHex "0123456789abcde") = String.length "0123456789abcde" /\
  Str.startsWith (reverseHex "0123456789abcde") "0x" = false.
Proof.
  apply (reverseHex_hex_closed "0123456789abcde"). reflexivity.
Defined.

End ReverseHexAll.

(** ** The table *)

Section Table.

Local Open Scope string_scope.
Local Arguments String.append !_ _ / : simpl nomatch.

(** X12: the table is replaced by the text "No logs available yet."
    exactly when there is neither a deposit nor a withdrawal; otherwise it
    has one row per deposit, so withdrawals without a deposit at their
    position are not shown, and with withdrawals only it has no row. *)
Theorem table_has_one_row_per_deposit (st : AppState) :
  (renderLogs st = NoLogs <-> depositLogs st = [] /\ withdrawLogs st = []) /\
  (forall rows, renderLogs st = Table rows -> length rows = length (depositLogs st)) /\
  (depositLogs st = [] -> withdrawLogs st <> [] -> renderLogs st = Table []).
Proof.
  unfold renderLogs.
  destruct (depositLogs st) as [|d ds] eqn:Hd, (withdrawLogs st) as [|w ws] eqn:Hw; simpl.
  - split; [done|]. split; [done|]. intros _ Hne. by destruct Hne.
  - split; [split; [done|by intros [_ ?]]|]. split; [|done].
    intros rows [= <-]. done.
  - split; [split; [done|by intros [? _]]|]. split; [|done].
    intros rows [= <-]. simpl. by rewrite length_imap.
  - split; [split; [done|by intros [? _]]|]. split; [|done].
    intros rows [= <-]. simpl. by rewrite length_imap.
Qed.

(** X13: after a page load and one run, row [i] of the table joins by
    position the [i]-th deposit and the [i]-th withdrawal received, and,
    when that withdrawal exists, shows [i] as the withdrawId with the value
    of the last declaration stored under the index [i]. *)
Theorem table_after_scan client (rows : list Row) (i : nat) (row : Row) :
  renderLogs (fetchResources client initialState).1 = Table rows ->
  rows !! i = Some row ->
  exists d,
    depositsOf (scannedLogs client) !! i = Some d /\
    depositCell row = renderDeposit d /\
    withdrawalCell row = renderWithdrawal <$> (withdrawalsOf (scannedLogs client) !! i) /\
    fillerCell row
    = match withdrawalsOf (scannedLogs client) !! i with
      | Some _ =>
          Some {| shownWithdrawId := i;
                  shownFillerId :=
                    (fun a => JS.NumberU (withdrawFillerId a))
                      <$> lastFillerFor (fillerKey (Z.of_nat i))
                            (fillersOf (scannedLogs client)) |}
      | None => None
      end.
Proof.
  unfold renderLogs.
  pose proof (fetchResources_collections client initialState) as (Hd & Hw & Hf).
  pose proof (filler_lookup := upsertFiller_fold_lookup
                (fillersOf (scannedLogs client)) ∅ (fillerKey (Z.of_nat i))).
  simpl in Hd, Hw, Hf. rewrite <- Hf in filler_lookup.
  destruct (_ || _)%bool; [|done]. intros [= <-] Hrow.
  apply list_lookup_imap_Some in Hrow as (d & Hdi & ->).
  rewrite Hd in Hdi. exists d. split; [done|]. split; [done|].
  unfold renderRow. cbn [withdrawalCell fillerCell]. rewrite Hw.
  split; [done|].
  destruct (withdrawalsOf (scannedLogs client) !! i); [|done].
  do 2 f_equal. unfold fillerKey in filler_lookup. rewrite filler_lookup.
  by destruct (lastFillerFor _ _).
Qed.

Lemma table_after_scan_witness :
  exists d,
    depositsOf (scannedLogs flakyNode) !! 1%nat = Some d /\
    depositCell (renderRow (fetchResources flakyNode initialState).1 1 deposit7)
    = renderDeposit d.
Proof.
  destruct (table_after_scan flakyNode
              (imap (renderRow (fetchResources flakyNode initialState).1)
                 (depositLogs (fetchResources flakyNode initialState).1))
              1 (renderRow (fetchResources flakyNode initialState).1 1 deposit7))
    as (d & Hd & Hcell & _).
  - by vm_compute.
  - by vm_compute.
  - exists d. split; [exact Hd|exact Hcell].
Defined.

Lemma reverseHex_strips_prefix s :
  isHexString s = true -> reverseHex ("0x" ++ s) = reverseHex s.
Proof.
  intros Hs. rewrite !reverseHex_join. do 3 f_equal. unfold unprefixed.
  rewrite (hexString_no_prefix s Hs).
  assert (Str.startsWith ("0x" ++ s) "0x" = true) as -> by by destruct s.
  done.
Qed.

(** X14: the deposit cell of a deposit whose txId is ["0x"] followed by a
    hex string of even length links to the explorer page of that string
    with its byte pairs reversed, and shows it; a deposit without txId, or
    with an empty one, links to the bare [tx/] page and shows nothing. *)
Theorem deposit_cell_links (d : DepositLog) :
  (forall s, txId d = Some ("0x" ++ s) ->
     isHexString s = true ->
     Nat.Even (String.length s) ->
     depositText (renderDeposit d) = reversedPairs s /\
     depositHref (renderDeposit d)
     = "https://mempool.space/testnet4/tx/" ++ reversedPairs s) /\
  (txId d = None \/ txId d = Some "" ->
   depositText (renderDeposit d) = "" /\
   depositHref (renderDeposit d) = "https://mempool.space/testnet4/tx/").
Proof.
  unfold renderDeposit, txLink, MEMPOOL_SPACE_URL.
  cbn [depositText depositHref]. split.
  - intros s -> Hs Hev. change (Str.orEmpty (Some ("0x" ++ s))) with ("0x" ++ s).
    rewrite (reverseHex_strips_prefix s Hs), (reverseHex_unprefixed s Hev Hs). done.
  - intros [-> | ->]; done.
Qed.

Lemma deposit_cell_links_witness :
  depositText (renderDeposit deposit7) = reversedPairs "0123456789abcdef" /\
  depositHref (renderDeposit deposit7)
  = "https://mempool.space/testnet4/tx/" ++ reversedPairs "0123456789abcdef".
Proof.
  apply (proj1 (deposit_cell_links deposit7) "0123456789abcdef");
    [reflexivity|reflexivity|by exists 8%nat].
Defined.

(** X15: the withdrawal cell links to ["#"] exactly when the utxo is
    missing or its transaction id is empty; otherwise it links to the
    explorer page of the reversed transaction id. *)
Theorem withdrawal_cell_links (w : WithdrawalLog) :
  (withdrawalHref (renderWithdrawal w) = "#" <->
   utxo w = None \/ exists n, utxo w = Some ("", n)) /\
  (forall h n, utxo w = Some (h, n) -> h <> "" ->
     withdrawalHref (renderWithdrawal w) = txLink h).
Proof.
  unfold renderWithdrawal. cbn [withdrawalHref].
  destruct (utxo w) as [[[|c h] n]|]; split.
  - split; [intros _; right; by exists n|done].
  - intros h' n' [= <- <-] Hne. by destruct Hne.
  - split; [by unfold txLink, MEMPOOL_SPACE_URL|].
    intros [|[n' ?]]; done.
  - by intros h' n' [= <- <-] _.
  - split; [by left|done].
  - done.
Qed.

Lemma withdrawal_cell_links_witness :
  withdrawalHref (renderWithdrawal withdrawal3) = txLink "0xaabb".
Proof.
  apply (proj2 (withdrawal_cell_links withdrawal3) "0xaabb" "0x00000001");
    [reflexivity|discriminate].
Defined.

Lemma table_has_one_row_per_deposit_witness :
  renderLogs {| progress := hundred; depositLogs := []; withdrawLogs := [withdrawal3];
                withdrawFillerLogs := ∅; isLoaded := true |} = Table [].
Proof.
  apply (proj2 (proj2 (table_has_one_row_per_deposit
                         {| progress := hundred; depositLogs := [];
                            withdrawLogs := [withdrawal3];
                            withdrawFillerLogs := ∅; isLoaded := true |})));
    [reflexivity|discriminate].
Defined.

End Table.
